(** * Photomosaic: the [Mosaicify] module of [src/mosaicify.js]

    A shallow embedding of the tile-averaging and row-rendering pipeline,
    with the geometry clipper, the glyph resolver over [localStorage], the
    promise chain of [renderMosaic] and the orchestrator [generateMosaic].

    Conventions of the embedding.
    - A JavaScript Number that holds an integer is a [Z]. The sums of a tile
      stay far below [2^53], where [Math.floor (a / b)] on doubles and
      [Z.div] agree for a positive divisor.
    - The globals [TILE_WIDTH] and [TILE_HEIGHT] are read by the module and
      declared outside it: they are the fields of the class [TileSize]. The
      embedding follows JavaScript for positive tile sizes; the statements
      that rest on it say so. The arguments [tileWidth] and [tileHeight] of
      [generate] are integers.
    - The browser (network, image decoder, storage quota, arrival order of
      responses) is the class [Browser]; every statement holds for every
      browser.
    - A promise is the state transformer that runs when it is awaited,
      together with the way it settles: [Resolved], [Rejected] or [Pending]
      (a promise whose [resolve] and [reject] are never called). *)

From Stdlib Require Import ZArith Lia.
From Stdlib Require HexadecimalString.
From Stdlib.Strings Require Import Byte Ascii.
From stdpp Require Import base option list gmap strings pretty.

Local Open Scope Z_scope.

(** ** Numbers, arrays *)

Module JS.

(** [a % b] of JavaScript: the sign follows the dividend. *)
Definition rem (a b : Z) : Z := Z.rem a b.

(** [Math.floor (a / b)]. *)
Definition floor_div (a b : Z) : Z := a / b.

(** The value of [a / b] when it is used as an array length: an integer, or
    something [Array] refuses (a fraction, an infinity, [NaN]). *)
Inductive num := Int (z : Z) | NotInt.

Definition divide (a b : Z) : num :=
  if b =? 0 then NotInt
  else if a mod b =? 0 then Int (a / b) else NotInt.

(** [Array.prototype.reduce] with the index handed to the callback. *)
Fixpoint reduce_from {A B : Type} (f : B → A → nat → B)
    (l : list A) (i : nat) (acc : B) : B :=
  match l with
  | [] => acc
  | x :: l' => reduce_from f l' (S i) (f acc x i)
  end.

Definition reduce {A B : Type} (f : B → A → nat → B) (l : list A) (init : B) : B :=
  reduce_from f l 0%nat init.

(** [0, 1, ..., n-1] as Numbers. *)
Definition upto (n : Z) : list Z := Z.of_nat <$> seq 0 (Z.to_nat n).

(** [n.toString(16)] for an integer [n]: lowercase digits, no padding, a
    minus sign for a negative number. *)
Definition toString16 (n : Z) : string :=
  HexadecimalString.NilZero.string_of_int (Z.to_hex_int n).

End JS.

(** ** Images and the canvas *)

Record Pixel := { red : byte; green : byte; blue : byte; alpha : byte }.

Definition transparent : Pixel :=
  {| red := x00; green := x00; blue := x00; alpha := x00 |}.

(** The value a [Uint8ClampedArray] yields for a stored byte. *)
Definition chan (b : byte) : Z := Z.of_N (Byte.to_N b).

(** A decoded bitmap: an [Image] element or the backing store of a canvas. *)
Module Img.
Record t := { width : Z; height : Z; pixel : Z → Z → Pixel }.

(** The pixel at [(x, y)]; transparent black outside the bitmap. *)
Definition sample (b : t) (x y : Z) : Pixel :=
  if (0 <=? x) && (x <? width b) && (0 <=? y) && (y <? height b)
  then pixel b x y else transparent.
End Img.

(** The pixels of the rectangle [sw] by [sh] at [(sx, sy)], row by row. *)
Definition rect (cv : Img.t) (sx sy sw sh : Z) : list Pixel :=
  j ← JS.upto sh; i ← JS.upto sw; [Img.sample cv (sx + i) (sy + j)].

(** [ctx.getImageData(sx, sy, sw, sh).data]: four numbers per pixel of the
    rectangle, in the order red, green, blue, alpha. *)
Definition getImageData (cv : Img.t) (sx sy sw sh : Z) : list Z :=
  p ← rect cv sx sy sw sh;
  [chan (red p); chan (green p); chan (blue p); chan (alpha p)].

(** [canvas.width = w; canvas.height = h] followed by
    [ctx.drawImage(img, sx, sy, w, h, 0, 0, w, h)]: the canvas is reset and
    receives the source rectangle unscaled. *)
Definition drawClipped (img : Img.t) (sx sy w h : Z) : Img.t :=
  {| Img.width := w; Img.height := h;
     Img.pixel := λ x y, Img.sample img (sx + x) (sy + y) |}.

(** ** The tile size *)

(** The two globals of the page that the module reads. *)
Class TileSize := { TILE_WIDTH : Z; TILE_HEIGHT : Z }.

Section Averager.
Context `{TileSize}.

Definition pixelsPerTile : Z := TILE_WIDTH * TILE_HEIGHT.

Definition totalColor (rgb : list Z) (colorValue : Z) (index : nat) : list Z :=
  match rgb with
  | r :: g :: b :: _ =>
      let color := [r; g; b] in
      if (index mod 4 =? 3)%nat then color
      else alter (λ c, c + colorValue) (index mod 4)%nat color
  | _ => rgb
  end.

Definition average (total : Z) : Z := JS.floor_div total pixelsPerTile.

Definition toHex (dec : Z) : string :=
  let hex := JS.toString16 dec in
  if (String.length hex =? 1)%nat then String "0"%char hex else hex.

(** The body of the inner [map] callback of [generateMosaic]. *)
Definition tileColor (ctx : Img.t) (x y : Z) : string :=
  let tileData :=
    getImageData ctx (TILE_WIDTH * x) (TILE_HEIGHT * y) TILE_WIDTH TILE_HEIGHT in
  String.concat EmptyString (toHex <$> (average <$> JS.reduce totalColor tileData [0; 0; 0])).

(** ** The geometry clipper *)

Record Clip := { width : Z; height : Z; offsetX : Z; offsetY : Z }.

Definition clipImage (img : Img.t) : Clip :=
  {| width := Img.width img - JS.rem (Img.width img) TILE_WIDTH;
     height := Img.height img - JS.rem (Img.height img) TILE_HEIGHT;
     offsetX := JS.floor_div (JS.rem (Img.width img) TILE_WIDTH) 2;
     offsetY := JS.floor_div (JS.rem (Img.height img) TILE_HEIGHT) 2 |}.

End Averager.

(** ** The browser and the state of the page *)

Inductive Event :=
  | Fetch (url : string)
  | ClearRect (x y w h : Z)
  | DrawImage (svg : string) (x y : Z)
  | RowBegin (rowNum : nat)
  | RowDone (rowNum : nat).

Class Browser := {
  (** the body of the [n]-th request of the page, sent to [url]; [None] when
      [fetch] or the reading of the body rejects *)
  respond : nat → string → option string;
  (** whether an image whose source is this blob fires [onload] *)
  decodes : string → bool;
  (** whether [localStorage.setItem(key, value)] fits the quota *)
  fits : gmap string string → string → string → bool;
  (** when the response for tile [colNum] of row [rowNum] arrives *)
  arrival : nat → nat → nat;
  (** [canvas.toDataURL()] of a canvas with this base layer and history *)
  toDataURL : Img.t → list Event → string
}.

(** [RowBegin] and [RowDone] are not effects of the page: they mark the call
    of [renderRow] and the end of its [then] callback in the trace. *)
Record World := {
  localStorage : gmap string string;
  canvas : Img.t;
  issued : nat;
  trace : list Event
}.

Definition log (es : list Event) (w : World) : World :=
  {| localStorage := localStorage w; canvas := canvas w;
     issued := issued w; trace := trace w ++ es |}.

Definition setStorage (m : gmap string string) (w : World) : World :=
  {| localStorage := m; canvas := canvas w;
     issued := issued w; trace := trace w |}.

Definition setCanvas (cv : Img.t) (w : World) : World :=
  {| localStorage := localStorage w; canvas := cv;
     issued := issued w; trace := trace w |}.

Definition sent (w : World) : World :=
  {| localStorage := localStorage w; canvas := canvas w;
     issued := S (issued w); trace := trace w |}.

(** ** Promises *)

Inductive Reason := NetworkError (url : string).

Inductive Outcome (A : Type) :=
  | Resolved (a : A)
  | Rejected (e : Reason)
  | Pending.
Arguments Resolved {A} a.
Arguments Rejected {A} e.
Arguments Pending {A}.

Definition Promise (A : Type) : Type := World → Outcome A * World.

Definition Promise_resolve {A : Type} (a : A) : Promise A := λ w, (Resolved a, w).

(** [p.then(f)] *)
Definition and_then {A B : Type} (p : Promise A) (f : A → Promise B) : Promise B :=
  λ w, match p w with
       | (Resolved a, w') => f a w'
       | (Rejected e, w') => (Rejected e, w')
       | (Pending, w') => (Pending, w')
       end.

(** A call either throws or returns. *)
Inductive Exception := RangeError.

Inductive Completion (A : Type) :=
  | Throws (e : Exception)
  | Returns (a : A).
Arguments Throws {A} e.
Arguments Returns {A} a.

(** The glyph image of a blob. *)
Definition Glyph : Type := string.

Definition first_rejection (settled : list (nat * Outcome Glyph)) : option Reason :=
  head (omap (λ s, match s.2 with Rejected e => Some e | _ => None end) settled).

Definition value_at (settled : list (nat * Outcome Glyph)) (i : nat) : option Glyph :=
  head (omap (λ s, match s.2 with
                   | Resolved g => if (s.1 =? i)%nat then Some g else None
                   | _ => None
                   end) settled).

(** [Promise.all] of [n] promises, given how they settled in the order of
    their settling: rejected by the first rejection, resolved with the values
    in the order of the array when all have resolved. *)
Definition Promise_all (n : nat) (settled : list (nat * Outcome Glyph))
    : Outcome (list Glyph) :=
  match first_rejection settled with
  | Some e => Rejected e
  | None =>
      match mapM (M := option) (value_at settled) (seq 0 n) with
      | Some svgs => Resolved svgs
      | None => Pending
      end
  end.

(** ** The glyph resolver *)

Section Mosaicify.
Context `{TileSize} `{Browser}.

Definition storageKey (color : string) : string :=
  "mosaic-" +:+ color +:+ "-" +:+ pretty TILE_WIDTH +:+ "-" +:+ pretty TILE_HEIGHT.

Definition colorURL (color : string) : string :=
  "http://localhost:8765/color/" +:+ color.

(** [if (storedColorSvg)]: neither [null] nor the empty string. *)
Definition truthy (item : option string) : bool :=
  match item with
  | Some (String _ _) => true
  | _ => false
  end.

(** No [onerror] handler is installed and [reject] is never called: the
    promise resolves on [onload] and otherwise stays pending. *)
Definition loadSVGtoIMG (svg : string) : Outcome Glyph :=
  if decodes svg then Resolved svg else Pending.

Definition clearCachedSvgs (w : World) : World :=
  let arr := filter (λ key, String.prefix "mosaic-" key = true)
                    (map_to_list (localStorage w)).*1 in
  setStorage (foldr delete (localStorage w) arr) w.

(** A call of [requestSVG] that has returned its promise. *)
Inductive Task :=
  | Loading (storedColorSvg : string)
  | Fetching (storageKey url : string) (n : nat).

(** [requestSVG] up to the point where it returns. *)
Definition requestSVG_start (color : string) (w : World) : Task * World :=
  let key := storageKey color in
  let storedColorSvg := localStorage w !! key in
  if truthy storedColorSvg then (Loading (default EmptyString storedColorSvg), w)
  else (Fetching key (colorURL color) (issued w),
        sent (log [Fetch (colorURL color)] w)).

(** What happens later: the image loads, or the response arrives and the
    callback of the second [then] runs. *)
Definition requestSVG_settle (t : Task) (w : World) : Outcome Glyph * World :=
  match t with
  | Loading storedColorSvg => (loadSVGtoIMG storedColorSvg, w)
  | Fetching key url n =>
      match respond n url with
      | None => (Rejected (NetworkError url), w)
      | Some svg =>
          let w' := if fits (localStorage w) key svg
                    then setStorage (<[key := svg]> (localStorage w)) w
                    else clearCachedSvgs w in
          (loadSVGtoIMG svg, w')
      end
  end.

(** [requestSVG(color)] awaited on its own. *)
Definition requestSVG (color : string) : Promise Glyph :=
  λ w, let '(t, w1) := requestSVG_start color w in requestSVG_settle t w1.

(** ** The row renderer *)

(** [tileRow.map(color => requestSVG(color))]: every call returns before any
    response is handled. *)
Fixpoint start_all (tileRow : list string) (w : World) : list Task * World :=
  match tileRow with
  | [] => ([], w)
  | color :: rest =>
      let '(t, w1) := requestSVG_start color w in
      let '(ts, w2) := start_all rest w1 in
      (t :: ts, w2)
  end.

Fixpoint insert_by (time : nat → nat) (x : nat * Task) (l : list (nat * Task))
    : list (nat * Task) :=
  match l with
  | [] => [x]
  | y :: l' =>
      if (time x.1 <=? time y.1)%nat then x :: y :: l'
      else y :: insert_by time x l'
  end.

(** The tasks of a row, with their columns, in the order they settle. *)
Definition arrival_order (rowNum : nat) (tasks : list Task) : list (nat * Task) :=
  foldr (insert_by (arrival rowNum)) [] (imap pair tasks).

Fixpoint settle_all (sched : list (nat * Task)) (w : World)
    : list (nat * Outcome Glyph) * World :=
  match sched with
  | [] => ([], w)
  | (i, t) :: rest =>
      let '(o, w1) := requestSVG_settle t w in
      let '(os, w2) := settle_all rest w1 in
      ((i, o) :: os, w2)
  end.

(** The row at the fan-in: all requests sent, all responses handled. *)
Definition row_settled (tileRow : list string) (rowNum : nat) (w : World)
    : list (nat * Outcome Glyph) * World :=
  let '(tasks, w1) := start_all tileRow (log [RowBegin rowNum] w) in
  settle_all (arrival_order rowNum tasks) w1.

(** The [reduce] over [svgs] in the callback of [renderRow]. *)
Definition draw_row (svgs : list Glyph) (rowNum : nat) (w : World) : World :=
  JS.reduce
    (λ ctx svg colNum,
       log [ClearRect (Z.of_nat colNum * TILE_WIDTH) (Z.of_nat rowNum * TILE_HEIGHT)
                      TILE_WIDTH TILE_HEIGHT;
            DrawImage svg (Z.of_nat colNum * TILE_WIDTH) (Z.of_nat rowNum * TILE_HEIGHT)]
           ctx)
    svgs w.

Definition renderRow (tileRow : list string) (rowNum : nat) : Promise unit :=
  λ w, let '(settled, w2) := row_settled tileRow rowNum w in
       match Promise_all (length tileRow) settled with
       | Resolved svgs => (Resolved (), log [RowDone rowNum] (draw_row svgs rowNum w2))
       | Rejected e => (Rejected e, w2)
       | Pending => (Pending, w2)
       end.

(** ** The orchestrator *)

Definition renderMosaic (mosaic : list (list string)) : Promise unit :=
  JS.reduce (λ p row rowNum, and_then p (λ _, renderRow row rowNum))
            mosaic (Promise_resolve ()).

(** [[...Array(num).keys()]]; [None] when [Array] throws a [RangeError]. *)
Definition range (num : JS.num) : option (list Z) :=
  match num with
  | JS.Int n => if (0 <=? n) && (n <? 2 ^ 32) then Some (JS.upto n) else None
  | JS.NotInt => None
  end.

(** The tile grid; the inner [range] is evaluated once per row, so with no
    row it is not evaluated at all. *)
Definition mosaicArray (ctx : Img.t) (xTotal yTotal : JS.num)
    : option (list (list string)) :=
  match range yTotal with
  | None => None
  | Some ys =>
      mapM (M := option)
           (λ y, match range xTotal with
                 | None => None
                 | Some xs => Some ((λ x, tileColor ctx x y) <$> xs)
                 end) ys
  end.

(** The canvas as [generateMosaic] prepares it for [img]. *)
Definition baseLayer (img : Img.t) : Img.t :=
  let c := clipImage img in
  drawClipped img (offsetX c) (offsetY c) (width c) (height c).

(** [generateMosaic] up to the point where [mosaicArray] is bound: the cache
    is cleared, the canvas prepared and the grid computed; [None] for the
    grid when [range] throws. An argument left out is [None]. *)
Definition generateMosaic_grid (img : Img.t) (tileWidth tileHeight : option Z)
    (w : World) : option (list (list string)) * World :=
  let tileWidth := default TILE_WIDTH tileWidth in
  let tileHeight := default TILE_HEIGHT tileHeight in
  let w1 := clearCachedSvgs w in
  let c := clipImage img in
  let w2 := setCanvas (baseLayer img) w1 in
  let xTotal := JS.divide (width c) tileWidth in
  let yTotal := JS.divide (height c) tileHeight in
  (mosaicArray (canvas w2) xTotal yTotal, w2).

(** [generateMosaic(img, canvas, tileWidth, tileHeight)]. The reading of the
    clock is not modelled. *)
Definition generateMosaic (img : Img.t) (tileWidth tileHeight : option Z)
    (w : World) : Completion (Outcome string) * World :=
  match generateMosaic_grid img tileWidth tileHeight w with
  | (None, w2) => (Throws RangeError, w2)
  | (Some mosaic, w2) =>
      let '(o, w3) :=
        and_then (renderMosaic mosaic)
                 (λ _ w', (Resolved (toDataURL (canvas w') (trace w')), w')) w2 in
      (Returns o, w3)
  end.

End Mosaicify.

(** ** The averages in the words of the specification *)

(** The sum of one channel over a block of pixels. *)
Definition channel_sum (f : Pixel → byte) (ps : list Pixel) : Z :=
  foldr (λ p s, chan (f p) + s) 0 ps.

(** Two lowercase hexadecimal digits, padded with a zero. *)
Definition hex2 (v : Z) : string :=
  let digit d := default "?"%char (String.get (Z.to_nat d) "0123456789abcdef") in
  String (digit (v / 16)) (String (digit (v mod 16)) EmptyString).

(** Each sum divided by the pixel count [n], rounded down, in hexadecimal,
    red then green then blue. *)
Definition average_color (ps : list Pixel) (n : Z) : string :=
  hex2 (channel_sum red ps / n) +:+ hex2 (channel_sum green ps / n)
  +:+ hex2 (channel_sum blue ps / n).

Section Specification.
Context `{TileSize}.


(** The grid [generateMosaic] computes for [img]. *)
Definition gridOf (img : Img.t) (tileWidth tileHeight : option Z)
    : option (list (list string)) :=
  let c := clipImage img in
  mosaicArray (baseLayer img)
    (JS.divide (width c) (default TILE_WIDTH tileWidth))
    (JS.divide (height c) (default TILE_HEIGHT tileHeight)).

End Specification.

(** ** Rendering in the words of the specification *)

Section Rendering.
Context `{TileSize} `{Browser}.

(** How a task settles, whatever the store holds at that moment. *)
Definition task_outcome (t : Task) : Outcome Glyph :=
  match t with
  | Loading svg => loadSVGtoIMG svg
  | Fetching _ url n =>
      match respond n url with
      | None => Rejected (NetworkError url)
      | Some svg => loadSVGtoIMG svg
      end
  end.

(** The loop that awaits each row before it starts the next. *)
Fixpoint rows_from (rows : list (list string)) (rowNum : nat) : Promise unit :=
  match rows with
  | [] => Promise_resolve ()
  | row :: rest => and_then (renderRow row rowNum) (λ _, rows_from rest (S rowNum))
  end.

(** A trace is serial from row [next] on when rows begin in the order of
    their index, a row begins only while no row is under way ([cur] is
    [None]), requests are sent and the canvas is touched only while a row is
    under way, and the canvas is touched only in the band of that row. *)
Fixpoint serial (next : nat) (cur : option nat) (tr : list Event) : bool :=
  match tr with
  | [] => true
  | e :: tr' =>
      match e, cur with
      | RowBegin r, None => (r =? next)%nat && serial (S next) (Some r) tr'
      | RowDone r, Some c => (r =? c)%nat && serial next None tr'
      | Fetch _, Some _ => serial next cur tr'
      | ClearRect _ y _ _, Some c | DrawImage _ _ y, Some c =>
          (y =? Z.of_nat c * TILE_HEIGHT) && serial next cur tr'
      | _, _ => false
      end
  end.

(** What the callback of [renderRow] does to the canvas: per glyph, from
    the left, the tile is cleared and the glyph drawn at its offset. *)
Definition row_draws (svgs : list Glyph) (rowNum : nat) : list Event :=
  mjoin (imap (λ colNum svg,
    [ClearRect (Z.of_nat colNum * TILE_WIDTH) (Z.of_nat rowNum * TILE_HEIGHT)
               TILE_WIDTH TILE_HEIGHT;
     DrawImage svg (Z.of_nat colNum * TILE_WIDTH) (Z.of_nat rowNum * TILE_HEIGHT)])
    svgs).

(** An event that may occur while row [r] is under way. *)
Definition in_row (r : nat) (e : Event) : bool :=
  match e with
  | Fetch _ => true
  | ClearRect _ y _ _ | DrawImage _ _ y => y =? Z.of_nat r * TILE_HEIGHT
  | _ => false
  end.

(** An event laid out with the tile size of the module: a request for a
    colour, or a tile cleared or a glyph drawn at a multiple of
    [TILE_WIDTH] and [TILE_HEIGHT]. *)
Definition tile_event (e : Event) : Prop :=
  match e with
  | Fetch url => ∃ color, url = colorURL color
  | ClearRect x y w h =>
      ∃ colNum rowNum : nat,
        x = Z.of_nat colNum * TILE_WIDTH ∧ y = Z.of_nat rowNum * TILE_HEIGHT
        ∧ w = TILE_WIDTH ∧ h = TILE_HEIGHT
  | DrawImage _ x y =>
      ∃ colNum rowNum : nat,
        x = Z.of_nat colNum * TILE_WIDTH ∧ y = Z.of_nat rowNum * TILE_HEIGHT
  | _ => True
  end.

(** Every entry of the glyph cache sits under the key of some colour for
    the tile size of the module. *)
Definition cache_keys_ok (w : World) : Prop :=
  ∀ k v, localStorage w !! k = Some v → String.prefix "mosaic-" k = true →
         ∃ color, k = storageKey color.

Definition task_ok (t : Task) : Prop :=
  match t with
  | Fetching key _ _ => ∃ color, key = storageKey color
  | Loading _ => True
  end.

(** From [w] to [w'] the trace grew by tile events and the cache kept its
    keys in order. *)
Definition tiled (w w' : World) : Prop :=
  (∃ tr, trace w' = trace w ++ tr ∧ Forall tile_event tr)
  ∧ (cache_keys_ok w → cache_keys_ok w').

End Rendering.

(** The rows a trace reports as done. *)
Definition rows_done (tr : list Event) : list nat :=
  omap (λ e, match e with RowDone r => Some r | _ => None end) tr.

(** The cache as the specification reads it: once a resolution through
    [fetch] has stored the blob, the next resolution of the colour takes it
    from the store and sends nothing. *)
Definition stored_blob_is_reused `{TileSize} `{Browser} : Prop :=
  ∀ (color : string) (w w1 : World) (key url : string) (n : nat) (svg : string),
    requestSVG_start color w = (Fetching key url n, w1) →
    respond n url = Some svg →
    fits (localStorage w1) key svg = true →
    let w2 := (requestSVG color w).2 in
    requestSVG color w2 = (loadSVGtoIMG svg, w2).

(** The events that mutate the canvas, and the requests. *)
Definition is_canvas (e : Event) : bool :=
  match e with ClearRect _ _ _ _ | DrawImage _ _ _ => true | _ => false end.

Definition is_fetch (e : Event) : bool :=
  match e with Fetch _ => true | _ => false end.


(** What a run added to the trace. *)
Definition since (w w' : World) : list Event := drop (length (trace w)) (trace w').

(** ** A page to run the module on *)

Definition demoTile : TileSize := {| TILE_WIDTH := 2; TILE_HEIGHT := 2 |}.

(** A service that answers every colour, a decoder that accepts every blob
    and a store without limit. *)
Definition demoBrowser : Browser :=
  {| respond := λ _ url, Some ("<svg " +:+ url +:+ ">");
     decodes := λ _, true;
     fits := λ _ _ _, true;
     arrival := λ _ colNum, colNum;
     toDataURL := λ _ _, "data:image/png" |}.

(** Five pixels by three: two columns of one colour, three of another. *)
Definition demoImage : Img.t :=
  {| Img.width := 5; Img.height := 3;
     Img.pixel := λ x _,
       if x <? 2 then {| red := x0c; green := x22; blue := x38; alpha := xff |}
       else {| red := xff; green := x10; blue := x00; alpha := xff |} |}.

(** The same service behind a store that is always full. *)
Definition fullStoreBrowser : Browser :=
  {| respond := λ _ url, Some ("<svg " +:+ url +:+ ">");
     decodes := λ _, true;
     fits := λ _ _ _, false;
     arrival := λ _ colNum, colNum;
     toDataURL := λ _ _, "data:image/png" |}.

(** A service that fails on the second request of the page. *)
Definition flakyBrowser : Browser :=
  {| respond := λ n url, if (n =? 1)%nat then None else Some ("<svg " +:+ url +:+ ">");
     decodes := λ _, true;
     fits := λ _ _ _, true;
     arrival := λ _ colNum, colNum;
     toDataURL := λ _ _, "data:image/png" |}.

(** A service that answers with an empty body, which no decoder accepts. *)
Definition emptyBodyBrowser : Browser :=
  {| respond := λ _ _, Some EmptyString;
     decodes := λ svg, negb (String.eqb svg EmptyString);
     fits := λ _ _ _, true;
     arrival := λ _ colNum, colNum;
     toDataURL := λ _ _, "data:image/png" |}.

(** A service whose answers are not images. *)
Definition notAnImageBrowser : Browser :=
  {| respond := λ _ _, Some "<html>404</html>";
     decodes := λ _, false;
     fits := λ _ _ _, true;
     arrival := λ _ colNum, colNum;
     toDataURL := λ _ _, "data:image/png" |}.

(** One pixel by three: narrower than a tile of [demoTile]. *)
Definition narrowImage : Img.t :=
  {| Img.width := 1; Img.height := 3;
     Img.pixel := λ _ _, {| red := x0c; green := x22; blue := x38; alpha := xff |} |}.

Definition blank : Img.t :=
  {| Img.width := 0; Img.height := 0; Img.pixel := λ _ _, transparent |}.

Definition demoWorld : World :=
  {| localStorage := <["theme" := "dark"]> (<["mosaic-ffffff-2-2" := "<svg old>"]> ∅);
     canvas := blank; issued := 0; trace := [] |}.

(** ** Further notions used to describe the module *)

(** The four numbers an [ImageData] holds for a pixel. *)
Definition channels (p : Pixel) : list Z :=
  [chan (red p); chan (green p); chan (blue p); chan (alpha p)].

(** The value of a lowercase hexadecimal digit. *)
Definition hexDigitValue (c : Ascii.ascii) : option Z :=
  Z.of_nat <$> String.index 0 (String c EmptyString) "0123456789abcdef".

(** [parseInt(s, 16)] on a string of lowercase hexadecimal digits. *)
Fixpoint hexValue_from (acc : Z) (s : string) : option Z :=
  match s with
  | EmptyString => Some acc
  | String c s' =>
      match hexDigitValue c with
      | Some d => hexValue_from (16 * acc + d) s'
      | None => None
      end
  end.

Definition hexValue (s : string) : option Z := hexValue_from 0 s.

Section Notions.
Context `{TileSize} `{Browser}.

(** The colours of a row that the store cannot serve: no entry under their
    key, or an empty one. *)
Definition uncached (store : gmap string string) (tileRow : list string)
    : list string :=
  List.filter (λ color, negb (truthy (store !! storageKey color))) tileRow.

(** The blob [svg] is what the page has for [color] from request [n0] on: the
    answer to a request for that colour numbered [n0] or later. *)
Definition answers (n0 : nat) (color svg : string) : Prop :=
  ∃ n, (n0 ≤ n)%nat ∧ respond n (colorURL color) = Some svg.

(** Every entry of the glyph cache is the answer to a request for its colour
    numbered [n0] or later. *)
Definition cache_fresh (n0 : nat) (w : World) : Prop :=
  ∀ k v, localStorage w !! k = Some v → String.prefix "mosaic-" k = true →
         ∃ color, k = storageKey color ∧ answers n0 color v.

(** A task as [requestSVG] for [color] creates it from request [n0] on. *)
Definition task_for (n0 : nat) (store : gmap string string) (color : string)
    (t : Task) : Prop :=
  match t with
  | Loading svg => store !! storageKey color = Some svg ∧ svg ≠ EmptyString
  | Fetching key url n =>
      key = storageKey color ∧ url = colorURL color ∧ (n0 ≤ n)%nat
      ∧ truthy (store !! storageKey color) = false
  end.

(** The glyph a tile of colour [color] may be drawn with in a row that starts
    with the store [store] and the request counter [n0]: decoded from the blob
    cached for the colour or from the answer to a request for it. *)
Definition glyph_for (n0 : nat) (store : gmap string string) (color : string)
    (svg : Glyph) : Prop :=
  decodes svg = true
  ∧ (store !! storageKey color = Some svg ∨ answers n0 color svg).

(** From [w] to [w'] the request counter did not go back, the entries of
    [localStorage] outside the glyph cache are the same, and the cache stayed
    fresh from request [n0] on if it was. *)
Definition run_keeps (n0 : nat) (w w' : World) : Prop :=
  (issued w ≤ issued w')%nat
  ∧ (∀ k, String.prefix "mosaic-" k = false →
          localStorage w' !! k = localStorage w !! k)
  ∧ (cache_fresh n0 w → cache_fresh n0 w').

End Notions.


(** A service that always answers, with a decoder that accepts the answer,
    behind a store of two entries. *)
Definition smallStoreBrowser : Browser :=
  {| respond := λ _ url, Some ("<svg " +:+ url +:+ ">");
     decodes := λ _, true;
     fits := λ store _ _, bool_decide (size store < 2)%nat;
     arrival := λ _ colNum, (10 - colNum)%nat;
     toDataURL := λ _ _, "data:image/png" |}.

(** Sizes of the demonstration page. *)
Ltac concrete_size :=
  cbv [TILE_WIDTH TILE_HEIGHT demoTile Img.width Img.height demoImage narrowImage];
  lia.

(** ** Arithmetic of the clipper *)

Lemma rem_nonneg (a b : Z) : 0 ≤ a → 0 < b → JS.rem a b = a mod b.
Proof. intros. unfold JS.rem. apply Z.rem_mod_nonneg; lia. Qed.

Lemma clip_width `{TileSize} (img : Img.t) :
  0 < TILE_WIDTH → 0 ≤ Img.width img →
  width (clipImage img) = TILE_WIDTH * (Img.width img / TILE_WIDTH).
Proof.
  intros. cbn. rewrite rem_nonneg by lia.
  pose proof (Z.div_mod (Img.width img) TILE_WIDTH). lia.
Qed.

Lemma clip_height `{TileSize} (img : Img.t) :
  0 < TILE_HEIGHT → 0 ≤ Img.height img →
  height (clipImage img) = TILE_HEIGHT * (Img.height img / TILE_HEIGHT).
Proof.
  intros. cbn. rewrite rem_nonneg by lia.
  pose proof (Z.div_mod (Img.height img) TILE_HEIGHT). lia.
Qed.

(** C5: for an image of [W0] by [H0] pixels the clipper returns
    [W0 - W0 mod W], [H0 - H0 mod H], [floor((W0 mod W)/2)] and
    [floor((H0 mod H)/2)]; the returned width and height are multiples of the
    tile size, and an image whose sides are multiples of the tile size is
    returned whole with offsets 0. The clipper is a function of the image
    alone: it neither reads nor changes the state of the page. *)
Theorem clipImage_spec `{TileSize} (img : Img.t) :
  0 < TILE_WIDTH → 0 < TILE_HEIGHT → 0 ≤ Img.width img → 0 ≤ Img.height img →
  clipImage img =
    {| width := Img.width img - Img.width img mod TILE_WIDTH;
       height := Img.height img - Img.height img mod TILE_HEIGHT;
       offsetX := (Img.width img mod TILE_WIDTH) / 2;
       offsetY := (Img.height img mod TILE_HEIGHT) / 2 |}
  ∧ (TILE_WIDTH | width (clipImage img))
  ∧ (TILE_HEIGHT | height (clipImage img))
  ∧ (Img.width img mod TILE_WIDTH = 0 → Img.height img mod TILE_HEIGHT = 0 →
     clipImage img =
       {| width := Img.width img; height := Img.height img;
          offsetX := 0; offsetY := 0 |}).
Proof.
  intros HW HH HW0 HH0.
  assert (Heq : clipImage img =
    {| width := Img.width img - Img.width img mod TILE_WIDTH;
       height := Img.height img - Img.height img mod TILE_HEIGHT;
       offsetX := (Img.width img mod TILE_WIDTH) / 2;
       offsetY := (Img.height img mod TILE_HEIGHT) / 2 |}).
  { unfold clipImage, JS.floor_div. by rewrite !rem_nonneg by lia. }
  split; [exact Heq|]. split; [|split].
  - rewrite clip_width by lia. by apply Z.divide_factor_l.
  - rewrite clip_height by lia. by apply Z.divide_factor_l.
  - intros Hx Hy. rewrite Heq, Hx, Hy. f_equal; lia.
Qed.

(** The clip of the five by three image for tiles of two by two. *)
Lemma clipImage_spec_demo :
  (0 < 2 ∧ 0 ≤ 5 ∧ 0 ≤ 3)
  ∧ @clipImage demoTile demoImage
    = {| width := 4; height := 2; offsetX := 0; offsetY := 0 |}
  ∧ (2 | width (@clipImage demoTile demoImage))
  ∧ (2 | height (@clipImage demoTile demoImage)).
Proof.
  split; [lia|].
  destruct (@clipImage_spec demoTile demoImage) as (Heq & Hw & Hh & _);
    [cbv [TILE_WIDTH TILE_HEIGHT demoTile Img.width Img.height demoImage]; lia..|].
  split_and!; [exact Heq|exact Hw|exact Hh].
Defined.

(** ** The tile averager *)

Lemma elem_of_upto (n x : Z) : x ∈ JS.upto n ↔ 0 ≤ x < n.
Proof.
  unfold JS.upto. rewrite list_elem_of_fmap. split.
  - intros (k & -> & Hk). apply elem_of_seq in Hk. lia.
  - intros Hx. exists (Z.to_nat x). split; [lia|]. apply elem_of_seq. lia.
Qed.

Lemma length_upto (n : Z) : length (JS.upto n) = Z.to_nat n.
Proof. unfold JS.upto. by rewrite length_fmap, length_seq. Qed.

Lemma lookup_upto (n : Z) (i : nat) (x : Z) :
  JS.upto n !! i = Some x → x = Z.of_nat i ∧ Z.of_nat i < n.
Proof.
  unfold JS.upto. rewrite list_lookup_fmap_Some.
  intros (k & -> & Hk). apply lookup_seq in Hk. lia.
Qed.

Lemma bind_ext_in {A B : Type} (f g : A → list B) (l : list A) :
  (∀ x, x ∈ l → f x = g x) → l ≫= f = l ≫= g.
Proof.
  induction l as [|a l IH]; intros Hfg; [done|].
  rewrite !bind_cons, Hfg, IH; [done| |by left].
  intros x Hx. apply Hfg. by right.
Qed.

Lemma length_bind_const {A B : Type} (f : A → list B) (l : list A) (k : nat) :
  (∀ x, length (f x) = k) → length (l ≫= f) = (length l * k)%nat.
Proof.
  intros Hk. induction l as [|a l IH]; [done|].
  rewrite bind_cons, length_app, Hk, IH. simpl. lia.
Qed.

Lemma length_rect (cv : Img.t) (sx sy sw sh : Z) :
  0 ≤ sw → 0 ≤ sh → Z.of_nat (length (rect cv sx sy sw sh)) = sw * sh.
Proof.
  intros Hw Hh. unfold rect.
  rewrite (length_bind_const _ _ (Z.to_nat sw)).
  - rewrite length_upto. lia.
  - intros j. rewrite (length_bind_const _ _ 1%nat) by done.
    rewrite length_upto. lia.
Qed.

Lemma chan_range (b : byte) : 0 ≤ chan b ≤ 255.
Proof. unfold chan. pose proof (Byte.to_N_bounded b). lia. Qed.

Lemma channel_sum_cons (f : Pixel → byte) (p : Pixel) (ps : list Pixel) :
  channel_sum f (p :: ps) = chan (f p) + channel_sum f ps.
Proof. reflexivity. Qed.

Lemma channel_sum_range (f : Pixel → byte) (ps : list Pixel) :
  0 ≤ channel_sum f ps ≤ 255 * Z.of_nat (length ps).
Proof.
  induction ps as [|p ps IH]; simpl; [lia|].
  pose proof (chan_range (f p)). lia.
Qed.

Lemma channel_sum_const (f : Pixel → byte) (ps : list Pixel) (v : Z) :
  (∀ p, p ∈ ps → chan (f p) = v) → channel_sum f ps = v * Z.of_nat (length ps).
Proof.
  induction ps as [|p ps IH]; intros Hv; simpl; [lia|].
  rewrite Hv by (by left). rewrite IH; [lia|].
  intros q Hq. apply Hv. by right.
Qed.

Lemma mod4_steps (i : nat) :
  (i mod 4 = 0 → S i mod 4 = 1 ∧ S (S i) mod 4 = 2 ∧ S (S (S i)) mod 4 = 3
   ∧ S (S (S (S i))) mod 4 = 0)%nat.
Proof.
  intros Hi. pose proof (Nat.div_mod_eq i 4) as Hq. rewrite Hi in Hq.
  set (q := (i / 4)%nat) in Hq.
  replace (S i) with (1 + q * 4)%nat by lia.
  replace (S (1 + q * 4)) with (2 + q * 4)%nat by lia.
  replace (S (2 + q * 4)) with (3 + q * 4)%nat by lia.
  replace (S (3 + q * 4)) with (0 + S q * 4)%nat by lia.
  by rewrite !Nat.Div0.mod_add.
Qed.

Lemma totalColor_at (r g b v : Z) (i k : nat) :
  (i mod 4 = k)%nat →
  totalColor [r; g; b] v i
  = if (k =? 3)%nat then [r; g; b] else alter (λ c, c + v) k [r; g; b].
Proof. intros <-. reflexivity. Qed.

(** The fold of [totalColor] over the data of an [ImageData] adds up the
    three colour channels and skips every fourth entry. *)
Lemma reduce_totalColor (ps : list Pixel) :
  ∀ (i : nat) (r g b : Z), (i mod 4 = 0)%nat →
    JS.reduce_from totalColor
      (ps ≫= λ p, [chan (red p); chan (green p); chan (blue p); chan (alpha p)])
      i [r; g; b]
    = [r + channel_sum red ps; g + channel_sum green ps; b + channel_sum blue ps].
Proof.
  induction ps as [|p ps IH]; intros i r g b Hi.
  - simpl. f_equal; [lia|]. f_equal; [lia|]. f_equal. lia.
  - destruct (mod4_steps i Hi) as (H1 & H2 & H3 & H4).
    rewrite bind_cons. cbn [app JS.reduce_from].
    rewrite (totalColor_at _ _ _ _ i 0) by done.
    cbn [Nat.eqb alter list_alter].
    rewrite (totalColor_at _ _ _ _ (S i) 1) by done.
    cbn [Nat.eqb alter list_alter].
    rewrite (totalColor_at _ _ _ _ (S (S i)) 2) by done.
    cbn [Nat.eqb alter list_alter].
    rewrite (totalColor_at _ _ _ _ (S (S (S i))) 3) by done.
    cbn [Nat.eqb].
    rewrite IH by done. rewrite !channel_sum_cons.
    f_equal; [lia|]. f_equal; [lia|]. f_equal. lia.
Qed.

Lemma toHex_hex2 (v : Z) : 0 ≤ v ≤ 255 → toHex v = hex2 v.
Proof.
  intros Hv.
  assert (Hall : forallb (λ n, String.eqb (toHex n) (hex2 n)) (JS.upto 256) = true)
    by (vm_compute; reflexivity).
  rewrite forallb_forall in Hall.
  apply String.eqb_eq, Hall, list_elem_of_In, elem_of_upto. lia.
Qed.

Lemma average_range `{TileSize} (f : Pixel → byte) (ps : list Pixel) :
  0 < pixelsPerTile → Z.of_nat (length ps) = pixelsPerTile →
  0 ≤ average (channel_sum f ps) ≤ 255.
Proof.
  intros Hpos Hlen. unfold average, JS.floor_div.
  pose proof (channel_sum_range f ps) as Hs. rewrite Hlen in Hs. split.
  - apply Z.div_pos; lia.
  - apply Z.div_le_upper_bound; lia.
Qed.

(** The colour of a tile is the average of the rectangle it reads. *)
Lemma tileColor_average `{TileSize} (ctx : Img.t) (x y : Z) :
  0 < TILE_WIDTH → 0 < TILE_HEIGHT →
  tileColor ctx x y
  = average_color
      (rect ctx (TILE_WIDTH * x) (TILE_HEIGHT * y) TILE_WIDTH TILE_HEIGHT)
      (TILE_WIDTH * TILE_HEIGHT).
Proof.
  intros HW HH. unfold tileColor, getImageData, JS.reduce.
  set (ps := rect _ _ _ _ _).
  assert (Hlen : Z.of_nat (length ps) = pixelsPerTile)
    by (unfold ps, pixelsPerTile; apply length_rect; lia).
  assert (Hpos : 0 < pixelsPerTile) by (unfold pixelsPerTile; lia).
  rewrite reduce_totalColor by done. cbn [fmap list_fmap]. rewrite !Z.add_0_l.
  rewrite !toHex_hex2 by (by apply average_range).
  unfold average_color, average, JS.floor_div, pixelsPerTile. by cbn.
Qed.

Lemma range_Some (num : JS.num) (l : list Z) :
  range num = Some l → ∃ n, num = JS.Int n ∧ 0 ≤ n ∧ l = JS.upto n.
Proof.
  destruct num as [n|]; simpl; [|done].
  destruct (0 <=? n) eqn:Hn; simpl; [|done].
  destruct (n <? 2 ^ 32); [|done].
  intros [= <-]. exists n. split_and!; [done|lia|done].
Qed.

(** Every cell of the grid is the colour of the tile at its column and row,
    and lies within the two array lengths. *)
Lemma mosaicArray_lookup `{TileSize} (ctx : Img.t) (xTotal yTotal : JS.num)
    (grid : list (list string)) (x y : nat) (row : list string) (c : string) :
  mosaicArray ctx xTotal yTotal = Some grid →
  grid !! y = Some row → row !! x = Some c →
  ∃ nx ny, xTotal = JS.Int nx ∧ yTotal = JS.Int ny
           ∧ Z.of_nat x < nx ∧ Z.of_nat y < ny
           ∧ c = tileColor ctx (Z.of_nat x) (Z.of_nat y).
Proof.
  unfold mosaicArray. intros Hgrid Hrow Hc.
  destruct (range yTotal) as [ys|] eqn:Hys; [|done].
  apply range_Some in Hys as (ny & -> & _ & ->).
  apply mapM_Some in Hgrid.
  destruct (Forall2_lookup_r _ _ _ _ _ Hgrid Hrow) as (yv & Hyv & Hf).
  destruct (range xTotal) as [xs|] eqn:Hxs; [|done].
  apply range_Some in Hxs as (nx & -> & _ & ->).
  injection Hf as <-.
  apply list_lookup_fmap_Some in Hc as (xv & -> & Hxv).
  apply lookup_upto in Hyv as [-> ?]. apply lookup_upto in Hxv as [-> ?].
  by exists nx, ny.
Qed.


Lemma divide_multiple (q b : Z) : 0 < b → JS.divide (b * q) b = JS.Int q.
Proof.
  intros Hb. unfold JS.divide.
  destruct (Z.eqb_spec b 0) as [|_]; [lia|].
  rewrite Z.mul_comm, Z_mod_mult, Z.eqb_refl, Z_div_mult by lia. done.
Qed.





(** ** The glyph cache *)

Section Cache.
Context `{TileSize} `{Browser}.

Lemma storageKey_prefix (color : string) :
  String.prefix "mosaic-" (storageKey color) = true.
Proof.
  unfold storageKey.
  generalize (color +:+ "-" +:+ pretty TILE_WIDTH +:+ "-" +:+ pretty TILE_HEIGHT).
  intros rest. by destruct rest.
Qed.

(** After [clearCachedSvgs] no key of the cache is left. *)
Lemma clearCachedSvgs_cache (w : World) (k : string) :
  String.prefix "mosaic-" k = true → localStorage (clearCachedSvgs w) !! k = None.
Proof.
  intros Hk. unfold clearCachedSvgs. cbn [localStorage setStorage].
  destruct (localStorage w !! k) as [v|] eqn:Hv.
  - apply lookup_foldr_delete, list_elem_of_filter. split; [done|].
    apply list_elem_of_fmap. exists (k, v). split; [done|].
    by apply elem_of_map_to_list.
  - apply eq_None_not_Some. intros [v' Hv'].
    apply lookup_foldr_delete_Some in Hv' as [_ Hv']. congruence.
Qed.

(** The other keys of [localStorage] are left alone. *)
Lemma clearCachedSvgs_other (w : World) (k : string) :
  String.prefix "mosaic-" k = false →
  localStorage (clearCachedSvgs w) !! k = localStorage w !! k.
Proof.
  intros Hk. unfold clearCachedSvgs. cbn [localStorage setStorage].
  apply lookup_foldr_delete_not_elem_of.
  intros [Hp _]%list_elem_of_filter. congruence.
Qed.

Lemma clearCachedSvgs_trace (w : World) : trace (clearCachedSvgs w) = trace w.
Proof. reflexivity. Qed.

Lemma clearCachedSvgs_issued (w : World) : issued (clearCachedSvgs w) = issued w.
Proof. reflexivity. Qed.

Lemma truthy_Some (item : option string) :
  truthy item = true ↔ ∃ svg, item = Some svg ∧ svg ≠ EmptyString.
Proof.
  destruct item as [[|a s]|]; simpl; split; try done.
  - intros (svg & [= <-] & Hne). done.
  - intros _. by eexists.
  - intros (svg & [=] & _).
Qed.

(** On the path through [fetch], the state in which the request is sent
    differs from the state before by the request alone. *)
Lemma requestSVG_start_miss (color : string) (w w1 : World)
    (key url : string) (n : nat) :
  requestSVG_start color w = (Fetching key url n, w1) →
  truthy (localStorage w !! storageKey color) = false
  ∧ key = storageKey color ∧ url = colorURL color ∧ n = issued w
  ∧ w1 = sent (log [Fetch (colorURL color)] w).
Proof.
  unfold requestSVG_start.
  destruct (truthy (localStorage w !! storageKey color)); [done|].
  by intros [= <- <- <- <-].
Qed.

Lemma requestSVG_start_hit (color : string) (w : World) (svg : string) :
  localStorage w !! storageKey color = Some svg → svg ≠ EmptyString →
  requestSVG_start color w = (Loading svg, w).
Proof.
  intros Hsvg Hne. unfold requestSVG_start.
  assert (Ht : truthy (localStorage w !! storageKey color) = true)
    by (apply truthy_Some; eauto).
  by rewrite Ht, Hsvg.
Qed.

End Cache.

(** ** One row *)

Section Row.
Context `{TileSize} `{Browser}.

Lemma trace_log (es : list Event) (w : World) : trace (log es w) = trace w ++ es.
Proof. reflexivity. Qed.

Lemma since_app (w w' : World) (tr : list Event) :
  trace w' = trace w ++ tr → since w w' = tr.
Proof. unfold since. intros ->. by rewrite drop_app_length. Qed.

Lemma requestSVG_start_spec (color : string) (w w1 : World) (t : Task) :
  requestSVG_start color w = (t, w1) →
  localStorage w1 = localStorage w ∧ canvas w1 = canvas w
  ∧ ∃ fs, trace w1 = trace w ++ fs ∧ forallb is_fetch fs = true
          ∧ (length fs ≤ 1)%nat.
Proof.
  unfold requestSVG_start.
  destruct (truthy _); intros [= <- <-].
  - split_and!; try done. exists []. rewrite app_nil_r. split_and!; [done..|simpl; lia].
  - split_and!; try done. exists [Fetch (colorURL color)]. split_and!; [done..|simpl; lia].
Qed.

Lemma start_all_spec (tileRow : list string) :
  ∀ (w w1 : World) (tasks : list Task),
    start_all tileRow w = (tasks, w1) →
    length tasks = length tileRow
    ∧ localStorage w1 = localStorage w ∧ canvas w1 = canvas w
    ∧ ∃ fs, trace w1 = trace w ++ fs ∧ forallb is_fetch fs = true
            ∧ (length fs ≤ length tileRow)%nat.
Proof.
  induction tileRow as [|color rest IH]; intros w w1 tasks; simpl.
  - intros [= <- <-]. split_and!; try done. exists []. by rewrite app_nil_r.
  - destruct (requestSVG_start color w) as [t wa] eqn:Ht.
    destruct (start_all rest wa) as [ts wb] eqn:Hts.
    intros [= <- <-].
    apply requestSVG_start_spec in Ht as (Hs1 & Hc1 & fs1 & Ht1 & Hf1 & Hl1).
    apply IH in Hts as (Hlen & Hs2 & Hc2 & fs2 & Ht2 & Hf2 & Hl2).
    split_and!; [simpl; lia|congruence|congruence|].
    exists (fs1 ++ fs2). split_and!.
    + by rewrite Ht2, Ht1, app_assoc.
    + by rewrite forallb_app, Hf1, Hf2.
    + rewrite length_app. lia.
Qed.

Lemma requestSVG_settle_spec (t : Task) (w w' : World) (o : Outcome Glyph) :
  requestSVG_settle t w = (o, w') →
  o = task_outcome t ∧ trace w' = trace w ∧ canvas w' = canvas w
  ∧ issued w' = issued w.
Proof.
  destruct t as [svg|key url n]; simpl.
  - by intros [= <- <-].
  - destruct (respond n url) as [svg|]; [|by intros [= <- <-]].
    intros [= <- <-]. by destruct (fits _ _ _).
Qed.

Lemma settle_all_spec (sched : list (nat * Task)) :
  ∀ (w w' : World) (settled : list (nat * Outcome Glyph)),
    settle_all sched w = (settled, w') →
    settled = (λ it, (it.1, task_outcome it.2)) <$> sched
    ∧ trace w' = trace w ∧ canvas w' = canvas w ∧ issued w' = issued w.
Proof.
  induction sched as [|[i t] rest IH]; intros w w' settled; simpl.
  - by intros [= <- <-].
  - destruct (requestSVG_settle t w) as [o wa] eqn:Ho.
    destruct (settle_all rest wa) as [os wb] eqn:Hos.
    intros [= <- <-].
    apply requestSVG_settle_spec in Ho as (-> & Ht1 & Hc1 & Hi1).
    apply IH in Hos as (-> & Ht2 & Hc2 & Hi2).
    split_and!; [done|congruence..].
Qed.

Lemma insert_by_perm (time : nat → nat) (x : nat * Task) (l : list (nat * Task)) :
  insert_by time x l ≡ₚ x :: l.
Proof.
  induction l as [|y l IH]; simpl; [done|].
  destruct (time x.1 <=? time y.1)%nat; [done|].
  rewrite IH. apply Permutation_swap.
Qed.

(** Every task of the row settles once. *)
Lemma arrival_order_perm (rowNum : nat) (tasks : list Task) :
  arrival_order rowNum tasks ≡ₚ imap pair tasks.
Proof.
  unfold arrival_order. induction (imap pair tasks) as [|x l IH]; simpl; [done|].
  by rewrite insert_by_perm, IH.
Qed.

Lemma draw_row_from (svgs : list Glyph) (rowNum : nat) :
  ∀ (i : nat) (w : World),
    JS.reduce_from
      (λ ctx svg colNum,
         log [ClearRect (Z.of_nat colNum * TILE_WIDTH)
                        (Z.of_nat rowNum * TILE_HEIGHT) TILE_WIDTH TILE_HEIGHT;
              DrawImage svg (Z.of_nat colNum * TILE_WIDTH)
                        (Z.of_nat rowNum * TILE_HEIGHT)] ctx)
      svgs i w
    = log (mjoin (imap (λ colNum svg,
        [ClearRect (Z.of_nat (i + colNum) * TILE_WIDTH)
                   (Z.of_nat rowNum * TILE_HEIGHT) TILE_WIDTH TILE_HEIGHT;
         DrawImage svg (Z.of_nat (i + colNum) * TILE_WIDTH)
                   (Z.of_nat rowNum * TILE_HEIGHT)]) svgs)) w.
Proof.
  induction svgs as [|svg svgs IH]; intros i w; simpl.
  - unfold log. destruct w; simpl. by rewrite app_nil_r.
  - rewrite IH. unfold log; simpl. f_equal. rewrite <- app_assoc. simpl.
    rewrite Nat.add_0_r. do 4 f_equal.
    apply imap_ext. intros j x _. simpl.
    by replace (i + S j)%nat with (S (i + j))%nat by lia.
Qed.

Lemma draw_row_spec (svgs : list Glyph) (rowNum : nat) (w : World) :
  draw_row svgs rowNum w = log (row_draws svgs rowNum) w.
Proof. unfold draw_row, JS.reduce. by rewrite draw_row_from. Qed.

Lemma forallb_mjoin_imap {A B : Type} (P : B → bool) (l : list A) :
  ∀ f : nat → A → list B,
    (∀ n a, forallb P (f n a) = true) → forallb P (mjoin (imap f l)) = true.
Proof.
  induction l as [|a l IH]; intros f Hf; [done|]. simpl.
  rewrite forallb_app, Hf. simpl. apply IH. intros n b. apply Hf.
Qed.

Lemma row_draws_in_row (svgs : list Glyph) (rowNum : nat) :
  forallb (in_row rowNum) (row_draws svgs rowNum) = true
  ∧ forallb is_canvas (row_draws svgs rowNum) = true.
Proof.
  split; apply forallb_mjoin_imap; intros n a; simpl; [|done].
  by rewrite Z.eqb_refl.
Qed.

End Row.

(** ** The fan-in of a row *)

Section FanIn.
Context `{TileSize} `{Browser}.

Lemma head_omap_Some {A B : Type} (f : A → option B) (l : list A) (a : A) (b : B) :
  a ∈ l → f a = Some b → is_Some (head (omap f l)).
Proof.
  intros Ha Hb. induction Ha as [a l|a a' l Ha IH]; simpl.
  - rewrite Hb. by eexists.
  - destruct (f a'); [by eexists|]. by apply IH.
Qed.

Lemma head_omap_elem {A B : Type} (f : A → option B) (l : list A) (b : B) :
  head (omap f l) = Some b → ∃ a, a ∈ l ∧ f a = Some b.
Proof.
  induction l as [|a l IH]; simpl; [done|].
  destruct (f a) as [b'|] eqn:Hfa.
  - intros [= <-]. exists a. split; [by left|done].
  - intros (a' & Ha' & Hb)%IH. exists a'. split; [by right|done].
Qed.

(** One rejection rejects the whole: the first one gives the reason. *)
Lemma Promise_all_rejected (n : nat) (settled : list (nat * Outcome Glyph))
    (i : nat) (e : Reason) :
  (i, Rejected e) ∈ settled →
  ∃ e', first_rejection settled = Some e' ∧ Promise_all n settled = Rejected e'.
Proof.
  intros Hin. unfold Promise_all.
  destruct (head_omap_Some
    (λ s : nat * Outcome Glyph, match s.2 with Rejected e => Some e | _ => None end)
    settled (i, Rejected e) e Hin eq_refl) as [e' He'].
  exists e'. unfold first_rejection. by rewrite He'.
Qed.

(** It resolves only when every promise of the array has resolved. *)
Lemma Promise_all_resolved (n : nat) (settled : list (nat * Outcome Glyph))
    (svgs : list Glyph) :
  Promise_all n settled = Resolved svgs →
  length svgs = n
  ∧ (∀ i, (i < n)%nat → ∃ g, (i, Resolved g) ∈ settled)
  ∧ (∀ i e, (i, Rejected e) ∉ settled).
Proof.
  unfold Promise_all. destruct (first_rejection settled) as [e0|] eqn:Hrej; [done|].
  destruct (mapM _ _) as [vs|] eqn:Hvs; [|done]. intros [= <-].
  apply mapM_Some in Hvs. split_and!.
  - apply Forall2_length in Hvs. by rewrite length_seq in Hvs.
  - intros i Hi.
    destruct (Forall2_lookup_l _ _ _ i i Hvs) as (g & _ & Hg);
      [by apply lookup_seq_lt|].
    apply head_omap_elem in Hg as ([j o] & Hin & Hjo). simpl in Hjo.
    destruct o as [g'| |]; try done.
    destruct (Nat.eqb_spec j i) as [->|]; [|done]. by exists g'.
  - intros i e Hin.
    destruct (Promise_all_rejected n settled i e Hin) as (e' & He' & _). congruence.
Qed.

Lemma row_settled_spec (tileRow : list string) (rowNum : nat) (w w2 : World)
    (settled : list (nat * Outcome Glyph)) :
  row_settled tileRow rowNum w = (settled, w2) →
  canvas w2 = canvas w
  ∧ ∃ fs, trace w2 = trace w ++ RowBegin rowNum :: fs
          ∧ forallb is_fetch fs = true ∧ (length fs ≤ length tileRow)%nat.
Proof.
  unfold row_settled.
  destruct (start_all tileRow (log [RowBegin rowNum] w)) as [tasks w1] eqn:Hstart.
  intros Hsettle.
  apply start_all_spec in Hstart as (_ & _ & Hc1 & fs & Ht1 & Hfs & Hlen).
  apply settle_all_spec in Hsettle as (_ & Ht2 & Hc2 & _).
  split; [by rewrite Hc2, Hc1|].
  exists fs. split_and!; [|done..].
  by rewrite Ht2, Ht1, trace_log, <- app_assoc.
Qed.

Lemma is_fetch_in_row (r : nat) (fs : list Event) :
  forallb is_fetch fs = true → forallb (in_row r) fs = true.
Proof.
  induction fs as [|[] fs IH]; simpl; done.
Qed.

(** What a call of [renderRow] adds to the trace: the mark of its
    beginning, its requests, and, only if it resolves, the drawing of its
    tiles followed by the mark of its end. *)
Lemma renderRow_trace (tileRow : list string) (rowNum : nat) (w w' : World)
    (o : Outcome unit) :
  renderRow tileRow rowNum w = (o, w') →
  ∃ body, trace w' = trace w ++ RowBegin rowNum :: body
                     ++ match o with Resolved _ => [RowDone rowNum] | _ => [] end
          ∧ forallb (in_row rowNum) body = true
          ∧ ((∀ a, o ≠ Resolved a) → forallb is_fetch body = true).
Proof.
  unfold renderRow.
  destruct (row_settled tileRow rowNum w) as [settled w2] eqn:Hrow.
  apply row_settled_spec in Hrow as (_ & fs & Ht & Hfs & _).
  destruct (Promise_all _ settled) as [svgs|e|]; intros [= <- <-].
  - exists (fs ++ row_draws svgs rowNum). split; [|split].
    + rewrite trace_log, draw_row_spec, trace_log, Ht.
      rewrite <- !app_assoc. simpl. by rewrite <- ?app_assoc.
    + rewrite forallb_app, is_fetch_in_row by done.
      apply row_draws_in_row.
    + intros Hne. by destruct (Hne ()).
  - exists fs. rewrite app_nil_r. split_and!; [done| |done].
    by apply is_fetch_in_row.
  - exists fs. rewrite app_nil_r. split_and!; [done| |done].
    by apply is_fetch_in_row.
Qed.

End FanIn.

(** ** The chain of rows *)

Section Chain.
Context `{TileSize} `{Browser}.

Lemma and_then_assoc {A B C : Type} (p : Promise A) (f : A → Promise B)
    (g : B → Promise C) (w : World) :
  and_then (and_then p f) g w = and_then p (λ a, and_then (f a) g) w.
Proof. unfold and_then. by destruct (p w) as [[a|e|] w1]. Qed.

Lemma and_then_ext {A B : Type} (p : Promise A) (f g : A → Promise B) (w : World) :
  (∀ a w1, f a w1 = g a w1) → and_then p f w = and_then p g w.
Proof. intros Hfg. unfold and_then. by destruct (p w) as [[a|e|] w1]. Qed.

(** The chain built by [reduce] is the loop that awaits each row before it
    starts the next one. *)
Lemma reduce_rows (rows : list (list string)) :
  ∀ (i : nat) (p : Promise unit) (w : World),
    JS.reduce_from (λ p row rowNum, and_then p (λ _, renderRow row rowNum))
                   rows i p w
    = and_then p (λ _, rows_from rows i) w.
Proof.
  induction rows as [|row rest IH]; intros i p w; simpl.
  - unfold and_then, Promise_resolve. by destruct (p w) as [[[]|e|] w1].
  - by rewrite IH, and_then_assoc.
Qed.

Lemma renderMosaic_rows (mosaic : list (list string)) (w : World) :
  renderMosaic mosaic w = rows_from mosaic 0 w.
Proof. unfold renderMosaic, JS.reduce. by rewrite reduce_rows. Qed.

Lemma rows_from_app (rows1 rows2 : list (list string)) :
  ∀ (i : nat) (w : World),
    rows_from (rows1 ++ rows2) i w
    = and_then (rows_from rows1 i) (λ _, rows_from rows2 (i + length rows1)) w.
Proof.
  induction rows1 as [|row rest IH]; intros i w; simpl.
  - by rewrite Nat.add_0_r.
  - rewrite and_then_assoc. apply and_then_ext. intros _ w1.
    rewrite IH. by replace (S i + length rest)%nat with (i + S (length rest))%nat by lia.
Qed.

Lemma serial_body (next r : nat) (body rest : list Event) :
  forallb (in_row r) body = true →
  serial next (Some r) (body ++ rest) = serial next (Some r) rest.
Proof.
  induction body as [|e body IH]; [done|]. simpl.
  intros [He Hbody]%andb_prop.
  destruct e; simpl in *; try done; rewrite ?He; simpl; by apply IH.
Qed.

Lemma rows_done_body (r : nat) (body : list Event) :
  forallb (in_row r) body = true → rows_done body = [].
Proof.
  induction body as [|e body IH]; [done|]. simpl.
  intros [He Hbody]%andb_prop. unfold rows_done in *. simpl.
  destruct e; simpl in *; try done; by apply IH.
Qed.

Lemma rows_done_app (tr1 tr2 : list Event) :
  rows_done (tr1 ++ tr2) = rows_done tr1 ++ rows_done tr2.
Proof. apply omap_app. Qed.

(** The trace of the loop: serial, and when the loop resolves every row is
    reported done, in the order of the rows. *)
Lemma rows_from_trace (rows : list (list string)) :
  ∀ (i : nat) (w w' : World) (o : Outcome unit),
    rows_from rows i w = (o, w') →
    ∃ tr, trace w' = trace w ++ tr
          ∧ serial i None tr = true
          ∧ (∃ k, (k ≤ length rows)%nat ∧ rows_done tr = seq i k)
          ∧ (o = Resolved () → rows_done tr = seq i (length rows)).
Proof.
  induction rows as [|row rest IH]; intros i w w' o; simpl.
  - intros [= <- <-]. exists []. rewrite app_nil_r. split_and!; try done.
    by exists 0%nat.
  - unfold and_then at 1.
    destruct (renderRow row i w) as [o1 w1] eqn:Hrow.
    apply renderRow_trace in Hrow as (body & Ht1 & Hbody & _).
    destruct o1 as [[]|e|].
    + intros (tr & Ht2 & Hser & (k & Hk & Hdone) & Hall)%IH.
      exists (RowBegin i :: body ++ RowDone i :: tr). split_and!.
      * rewrite Ht2, Ht1. rewrite <- !app_assoc. simpl. by rewrite <- app_assoc.
      * simpl. rewrite Nat.eqb_refl. simpl.
        rewrite serial_body by done. simpl. by rewrite Nat.eqb_refl.
      * exists (S k). split; [lia|].
        change (RowBegin i :: body ++ RowDone i :: tr)
          with ([RowBegin i] ++ body ++ [RowDone i] ++ tr).
        rewrite !rows_done_app, (rows_done_body i body) by done.
        simpl. by rewrite Hdone.
      * intros Ho.
        change (RowBegin i :: body ++ RowDone i :: tr)
          with ([RowBegin i] ++ body ++ [RowDone i] ++ tr).
        rewrite !rows_done_app, (rows_done_body i body) by done.
        simpl. by rewrite Hall.
    + intros [= <- <-]. rewrite app_nil_r in Ht1.
      exists (RowBegin i :: body). split_and!; [done| | |done].
      * simpl. rewrite Nat.eqb_refl. simpl.
        rewrite <- (app_nil_r body). by rewrite serial_body.
      * exists 0%nat. split; [lia|].
        change (RowBegin i :: body) with ([RowBegin i] ++ body).
        by rewrite rows_done_app, (rows_done_body i body).
    + intros [= <- <-]. rewrite app_nil_r in Ht1.
      exists (RowBegin i :: body). split_and!; [done| | |done].
      * simpl. rewrite Nat.eqb_refl. simpl.
        rewrite <- (app_nil_r body). by rewrite serial_body.
      * exists 0%nat. split; [lia|].
        change (RowBegin i :: body) with ([RowBegin i] ++ body).
        by rewrite rows_done_app, (rows_done_body i body).
Qed.

Lemma generateMosaic_grid_spec (img : Img.t) (tileWidth tileHeight : option Z)
    (w : World) :
  generateMosaic_grid img tileWidth tileHeight w
  = (gridOf img tileWidth tileHeight, setCanvas (baseLayer img) (clearCachedSvgs w)).
Proof. reflexivity. Qed.

(** [generateMosaic] in terms of the grid and of the loop over its rows. *)
Lemma generateMosaic_rows (img : Img.t) (tileWidth tileHeight : option Z)
    (w : World) :
  generateMosaic img tileWidth tileHeight w
  = let w2 := setCanvas (baseLayer img) (clearCachedSvgs w) in
    match gridOf img tileWidth tileHeight with
    | None => (Throws RangeError, w2)
    | Some mosaic =>
        match rows_from mosaic 0 w2 with
        | (Resolved _, w3) => (Returns (Resolved (toDataURL (canvas w3) (trace w3))), w3)
        | (Rejected e, w3) => (Returns (Rejected e), w3)
        | (Pending, w3) => (Returns Pending, w3)
        end
    end.
Proof.
  unfold generateMosaic. rewrite generateMosaic_grid_spec. cbn zeta.
  destruct (gridOf img tileWidth tileHeight) as [mosaic|]; [|done].
  unfold and_then. rewrite renderMosaic_rows.
  by destruct (rows_from mosaic 0 _) as [[[]|e|] w3].
Qed.

End Chain.

(** C2: for every grid, the chain [renderMosaic] builds is the loop that
    awaits each row before it starts the next, and the rows are rendered one
    after the other in the order of their index: a row begins only when the
    row before it has settled, its drawing included, the canvas is touched
    only in the band of the row under way, and when the chain resolves every
    row 0..N-1 has been rendered, in that order. The same holds for every
    call of [generate]. *)
Theorem rows_rendered_in_order `{TileSize} `{Browser}
    (mosaic : list (list string)) (w : World) :
  let w' := (renderMosaic mosaic w).2 in
  renderMosaic mosaic w = rows_from mosaic 0 w
  ∧ trace w' = trace w ++ since w w'
  ∧ serial 0 None (since w w') = true
  ∧ (∃ k, (k ≤ length mosaic)%nat ∧ rows_done (since w w') = seq 0 k)
  ∧ ((renderMosaic mosaic w).1 = Resolved () →
     rows_done (since w w') = seq 0 (length mosaic))
  ∧ (∀ img tileWidth tileHeight w0,
       let w1 := (generateMosaic img tileWidth tileHeight w0).2 in
       trace w1 = trace w0 ++ since w0 w1
       ∧ serial 0 None (since w0 w1) = true
       ∧ (∀ url, (generateMosaic img tileWidth tileHeight w0).1
                 = Returns (Resolved url) →
            ∃ grid, gridOf img tileWidth tileHeight = Some grid
                    ∧ rows_done (since w0 w1) = seq 0 (length grid))).
Proof.
  cbn zeta. rewrite renderMosaic_rows. split; [done|].
  assert (Hmosaic : ∀ rows w0,
    trace (rows_from rows 0 w0).2 = trace w0 ++ since w0 (rows_from rows 0 w0).2
    ∧ serial 0 None (since w0 (rows_from rows 0 w0).2) = true
    ∧ (∃ k, (k ≤ length rows)%nat
            ∧ rows_done (since w0 (rows_from rows 0 w0).2) = seq 0 k)
    ∧ ((rows_from rows 0 w0).1 = Resolved () →
       rows_done (since w0 (rows_from rows 0 w0).2) = seq 0 (length rows))).
  { intros rows w0. destruct (rows_from rows 0 w0) as [o w3] eqn:Hrows.
    apply rows_from_trace in Hrows as (tr & Ht & Hser & Hsome & Hall).
    cbn [fst snd]. rewrite (since_app _ _ _ Ht). by split_and!. }
  destruct (Hmosaic mosaic w) as (Ht & Hser & Hsome & Hall).
  split_and!; [done..|].
  intros img tileWidth tileHeight w0. cbn zeta.
  rewrite generateMosaic_rows. cbn zeta.
  destruct (gridOf img tileWidth tileHeight) as [grid|].
  - destruct (Hmosaic grid (setCanvas (baseLayer img) (clearCachedSvgs w0)))
      as (Ht0 & Hser0 & _ & Hall0).
    destruct (rows_from grid 0 _) as [o w3]. cbn [fst snd] in *.
    assert (Hsince : since w0 w3
                     = since (setCanvas (baseLayer img) (clearCachedSvgs w0)) w3)
      by done.
    destruct o as [[]|e|]; cbn [fst snd]; rewrite Hsince;
      (split_and!; [done|done|]); intros url [=].
    exists grid. split; [done|]. by apply Hall0.
  - cbn [fst snd].
    assert (Hsince : since w0 (setCanvas (baseLayer img) (clearCachedSvgs w0)) = [])
      by (apply since_app; cbn; by rewrite app_nil_r).
    rewrite Hsince. split_and!; [by rewrite app_nil_r|done|]. intros url [=].
Qed.

(** ** Failure of a row *)

Section Failure.
Context `{TileSize} `{Browser}.

Lemma no_canvas_among_fetches (fs : list Event) :
  forallb is_fetch fs = true → forallb (λ e, negb (is_canvas e)) fs = true.
Proof. induction fs as [|[] fs IH]; simpl; done. Qed.

(** Up to the fan-in a row leaves the canvas alone; it draws only when the
    glyph of every column has resolved, all tiles at once, and otherwise
    stops in the state of the fan-in. *)
Lemma renderRow_fan_in (tileRow : list string) (rowNum : nat) (w : World) :
  let settled := (row_settled tileRow rowNum w).1 in
  let wf := (row_settled tileRow rowNum w).2 in
  let o := (renderRow tileRow rowNum w).1 in
  let w' := (renderRow tileRow rowNum w).2 in
  forallb (λ e, negb (is_canvas e)) (since w wf) = true
  ∧ match o with
    | Resolved _ =>
        (∀ colNum, (colNum < length tileRow)%nat →
           ∃ g, (colNum, Resolved g) ∈ settled)
        ∧ ∃ svgs, length svgs = length tileRow
                  ∧ since wf w' = row_draws svgs rowNum ++ [RowDone rowNum]
    | _ => w' = wf
    end.
Proof.
  cbn zeta. unfold renderRow.
  destruct (row_settled tileRow rowNum w) as [settled wf] eqn:Hrow.
  cbn [fst snd].
  apply row_settled_spec in Hrow as (_ & fs & Ht & Hfs & _).
  split.
  - rewrite (since_app _ _ _ Ht). simpl. by apply no_canvas_among_fetches.
  - destruct (Promise_all _ settled) as [svgs|e|] eqn:Hall; cbn [fst snd]; [|done..].
    apply Promise_all_resolved in Hall as (Hlen & Hres & _).
    split; [done|]. exists svgs. split; [done|].
    apply since_app. by rewrite trace_log, draw_row_spec, trace_log, <- app_assoc.
Qed.

End Failure.

(** C3: a row touches the canvas only after the glyph of each of its tiles
    has resolved. When the glyph of one tile is rejected, the row is rejected
    in the state of its fan-in: none of its tiles is drawn, every tile was
    requested at most once, no later row begins, and the call of [generate]
    is rejected with the reason of the first rejection. *)
Theorem row_failure_aborts `{TileSize} `{Browser} (img : Img.t)
    (tileWidth tileHeight : option Z) (w w1 w2 : World)
    (rows1 rows2 : list (list string)) (row : list string)
    (settled : list (nat * Outcome Glyph)) (colNum : nat) (e : Reason) :
  gridOf img tileWidth tileHeight = Some (rows1 ++ row :: rows2) →
  renderMosaic rows1 (setCanvas (baseLayer img) (clearCachedSvgs w))
    = (Resolved (), w1) →
  row_settled row (length rows1) w1 = (settled, w2) →
  (colNum, Rejected e) ∈ settled →
  (∃ e', first_rejection settled = Some e'
         ∧ renderRow row (length rows1) w1 = (Rejected e', w2)
         ∧ generateMosaic img tileWidth tileHeight w = (Returns (Rejected e'), w2))
  ∧ (∃ fs, since w1 w2 = RowBegin (length rows1) :: fs
           ∧ forallb is_fetch fs = true ∧ (length fs ≤ length row)%nat)
  ∧ forallb (λ ev, negb (is_canvas ev)) (since w1 w2) = true
  ∧ (∀ tileRow rowNum w0,
       forallb (λ ev, negb (is_canvas ev))
               (since w0 (row_settled tileRow rowNum w0).2) = true
       ∧ match (renderRow tileRow rowNum w0).1 with
         | Resolved _ =>
             (∀ c, (c < length tileRow)%nat →
                ∃ g, (c, Resolved g) ∈ (row_settled tileRow rowNum w0).1)
             ∧ ∃ svgs, length svgs = length tileRow
                 ∧ since (row_settled tileRow rowNum w0).2
                         (renderRow tileRow rowNum w0).2
                   = row_draws svgs rowNum ++ [RowDone rowNum]
         | _ => (renderRow tileRow rowNum w0).2 = (row_settled tileRow rowNum w0).2
         end).
Proof.
  intros Hgrid Hrows1 Hrow Hin.
  destruct (Promise_all_rejected (length row) settled colNum e Hin)
    as (e' & Hfirst & Hall).
  assert (Hrender : renderRow row (length rows1) w1 = (Rejected e', w2)).
  { unfold renderRow. by rewrite Hrow, Hall. }
  pose proof (row_settled_spec _ _ _ _ _ Hrow) as (_ & fs & Ht & Hfs & Hlen).
  split_and!.
  - exists e'. split_and!; [done..|].
    rewrite generateMosaic_rows, Hgrid. cbn zeta.
    rewrite rows_from_app. unfold and_then at 1.
    rewrite <- renderMosaic_rows, Hrows1. simpl.
    unfold and_then at 1. by rewrite Hrender.
  - exists fs. split_and!; [by apply since_app|done..].
  - rewrite (since_app _ _ _ Ht). simpl. by apply no_canvas_among_fetches.
  - intros tileRow rowNum w0. apply (renderRow_fan_in tileRow rowNum w0).
Qed.

(** ** The resolver and the store *)

Lemma insert_by_ext (t1 t2 : nat → nat) (x : nat * Task) (l : list (nat * Task)) :
  (∀ c, t1 c = t2 c) → insert_by t1 x l = insert_by t2 x l.
Proof.
  intros Ht. induction l as [|y l IH]; simpl; [done|].
  by rewrite !Ht, IH.
Qed.

(** How a row settles does not depend on the quota of the store. *)
Lemma renderRow_outcome_quota `{TileSize} (B1 B2 : Browser)
    (tileRow : list string) (rowNum : nat) (w : World) :
  (∀ n url, @respond B1 n url = @respond B2 n url) →
  (∀ svg, @decodes B1 svg = @decodes B2 svg) →
  (∀ r c, @arrival B1 r c = @arrival B2 r c) →
  (@renderRow _ B1 tileRow rowNum w).1 = (@renderRow _ B2 tileRow rowNum w).1.
Proof.
  intros Hrespond Hdecodes Harrival. unfold renderRow, row_settled.
  destruct (start_all tileRow (log [RowBegin rowNum] w)) as [tasks w1].
  destruct (@settle_all B1 _ w1) as [s1 wa] eqn:Hs1.
  destruct (@settle_all B2 _ w1) as [s2 wb] eqn:Hs2.
  apply settle_all_spec in Hs1 as (-> & _). apply settle_all_spec in Hs2 as (-> & _).
  assert (Horder : @arrival_order B1 rowNum tasks = @arrival_order B2 rowNum tasks).
  { unfold arrival_order. induction (imap pair tasks) as [|x l IH]; simpl; [done|].
    rewrite IH. by apply insert_by_ext. }
  assert (Hout : ∀ t, @task_outcome B1 t = @task_outcome B2 t).
  { intros [svg|key url n]; simpl; unfold loadSVGtoIMG.
    - by rewrite Hdecodes.
    - rewrite Hrespond. destruct (respond n url); [by rewrite Hdecodes|done]. }
  rewrite Horder.
  rewrite (list_fmap_ext _ (λ it : nat * Task, (it.1, @task_outcome B2 it.2))
                         (@arrival_order B2 rowNum tasks))
    by (intros _ [i t] _; simpl; by rewrite Hout).
  by destruct (Promise_all _ _).
Qed.

(** C4: on the path through [fetch], when the store refuses the blob the
    resolver empties the glyph cache (every key that begins with "mosaic-",
    the other keys of the store stay) and goes on to decode the blob it has
    just received: the promise is never rejected for it, it resolves with the
    glyph whenever the blob decodes, and the way the row settles is the same
    as with a store that accepts everything. *)
Theorem store_failure_is_absorbed `{TileSize} `{B : Browser} (color : string)
    (w w1 : World) (key url : string) (n : nat) (svg : string) :
  requestSVG_start color w = (Fetching key url n, w1) →
  respond n url = Some svg →
  fits (localStorage w1) key svg = false →
  requestSVG color w = (loadSVGtoIMG svg, clearCachedSvgs w1)
  ∧ (∀ e, (requestSVG color w).1 ≠ Rejected e)
  ∧ (decodes svg = true → (requestSVG color w).1 = Resolved svg)
  ∧ (∀ k, String.prefix "mosaic-" k = true →
          localStorage (requestSVG color w).2 !! k = None)
  ∧ (∀ c, localStorage (requestSVG color w).2 !! storageKey c = None)
  ∧ (∀ k, String.prefix "mosaic-" k = false →
          localStorage (requestSVG color w).2 !! k = localStorage w !! k)
  ∧ (∀ (B2 : Browser) tileRow rowNum w0,
       (∀ m u, @respond B m u = @respond B2 m u) →
       (∀ s, @decodes B s = @decodes B2 s) →
       (∀ r c, @arrival B r c = @arrival B2 r c) →
       (@renderRow _ B tileRow rowNum w0).1 = (@renderRow _ B2 tileRow rowNum w0).1).
Proof.
  intros Hstart Hrespond Hfits.
  assert (Hreq : requestSVG color w = (loadSVGtoIMG svg, clearCachedSvgs w1)).
  { unfold requestSVG. rewrite Hstart. simpl. by rewrite Hrespond, Hfits. }
  rewrite Hreq. cbn [fst snd].
  apply requestSVG_start_miss in Hstart as (_ & _ & _ & _ & ->).
  split_and!.
  - done.
  - intros e. unfold loadSVGtoIMG. by destruct (decodes svg).
  - intros Hdec. unfold loadSVGtoIMG. by rewrite Hdec.
  - intros k Hk. by apply clearCachedSvgs_cache.
  - intros c. apply clearCachedSvgs_cache, storageKey_prefix.
  - intros k Hk. by rewrite clearCachedSvgs_other.
  - intros B2 tileRow rowNum w0. apply renderRow_outcome_quota.
Qed.

(** With a store that is always full the glyph still resolves. *)
Lemma store_failure_is_absorbed_demo :
  @requestSVG demoTile fullStoreBrowser "0c2238" demoWorld
  = (Resolved "<svg http://localhost:8765/color/0c2238>",
     clearCachedSvgs
       (sent (log [Fetch "http://localhost:8765/color/0c2238"] demoWorld))).
Proof.
  exact (proj1 (@store_failure_is_absorbed demoTile fullStoreBrowser "0c2238"
    demoWorld (sent (log [Fetch "http://localhost:8765/color/0c2238"] demoWorld))
    "mosaic-0c2238-2-2" "http://localhost:8765/color/0c2238" 0%nat
    "<svg http://localhost:8765/color/0c2238>" eq_refl eq_refl eq_refl)).
Defined.

(** C6, as the program has it: once a resolution through [fetch] has stored
    a blob that is not empty under the key of the colour and the tile size,
    the next resolution of that colour takes the blob from the store, settles
    as the decoding of that blob does, and leaves the page as it is: no
    second request is sent. *)
Theorem stored_blob_is_reused_when_not_empty `{TileSize} `{Browser}
    (color : string) (w w1 : World) (key url : string) (n : nat) (svg : string) :
  requestSVG_start color w = (Fetching key url n, w1) →
  respond n url = Some svg →
  fits (localStorage w1) key svg = true →
  svg ≠ EmptyString →
  let w2 := (requestSVG color w).2 in
  key = storageKey color
  ∧ localStorage w2 !! storageKey color = Some svg
  ∧ (requestSVG color w).1 = loadSVGtoIMG svg
  ∧ requestSVG color w2 = (loadSVGtoIMG svg, w2)
  ∧ since w2 (requestSVG color w2).2 = [].
Proof.
  intros Hstart Hrespond Hfits Hne. cbn zeta.
  assert (Hreq : requestSVG color w
    = (loadSVGtoIMG svg, setStorage (<[key := svg]> (localStorage w1)) w1)).
  { unfold requestSVG. rewrite Hstart. simpl. by rewrite Hrespond, Hfits. }
  rewrite Hreq. cbn [fst snd].
  apply requestSVG_start_miss in Hstart as (_ & -> & _ & _ & ->).
  assert (Hstored : localStorage
      (setStorage (<[storageKey color := svg]>
                     (localStorage (sent (log [Fetch (colorURL color)] w))))
                  (sent (log [Fetch (colorURL color)] w)))
      !! storageKey color = Some svg) by apply lookup_insert_eq.
  assert (Hagain : ∀ w2, localStorage w2 !! storageKey color = Some svg →
                         requestSVG color w2 = (loadSVGtoIMG svg, w2)).
  { intros w2 Hw2. unfold requestSVG.
    by rewrite (requestSVG_start_hit color w2 svg). }
  split_and!; [done..| |].
  - by apply Hagain.
  - rewrite Hagain by done. unfold since. cbn [snd]. by rewrite drop_all.
Qed.

(** The second resolution of a colour on the demonstration page. *)
Lemma stored_blob_is_reused_demo :
  let w2 := (@requestSVG demoTile demoBrowser "0c2238" demoWorld).2 in
  @requestSVG demoTile demoBrowser "0c2238" w2
  = (Resolved "<svg http://localhost:8765/color/0c2238>", w2).
Proof.
  exact (proj1 (proj2 (proj2 (proj2
    (@stored_blob_is_reused_when_not_empty demoTile demoBrowser "0c2238"
       demoWorld (sent (log [Fetch "http://localhost:8765/color/0c2238"] demoWorld))
       "mosaic-0c2238-2-2" "http://localhost:8765/color/0c2238" 0%nat
       "<svg http://localhost:8765/color/0c2238>" eq_refl eq_refl eq_refl
       ltac:(discriminate)))))).
Defined.

(** C6 as stated fails for a blob that is empty: [setItem] stores it, the
    test of [getItem]'s result takes the empty string for a missing entry,
    and the next resolution of the colour sends a second request. *)
Lemma empty_blob_is_fetched_again :
  let w2 := (@requestSVG demoTile emptyBodyBrowser "0c2238" demoWorld).2 in
  localStorage w2 !! @storageKey demoTile "0c2238" = Some EmptyString
  ∧ since w2 (@requestSVG demoTile emptyBodyBrowser "0c2238" w2).2
    = [Fetch "http://localhost:8765/color/0c2238"]
  ∧ ¬ @stored_blob_is_reused demoTile emptyBodyBrowser.
Proof.
  cbn zeta. split_and!.
  - vm_compute. reflexivity.
  - vm_compute. reflexivity.
  - intros Hclaim.
    specialize (Hclaim "0c2238" demoWorld
      (sent (log [Fetch "http://localhost:8765/color/0c2238"] demoWorld))
      "mosaic-0c2238-2-2" "http://localhost:8765/color/0c2238" 0%nat EmptyString
      eq_refl eq_refl eq_refl).
    cbn zeta in Hclaim. apply (f_equal (λ r, issued r.2)) in Hclaim.
    vm_compute in Hclaim. discriminate.
Qed.

(** ** Decoding *)

(** C8 on the program: [loadSVGtoIMG] installs [onload] alone, so the promise
    for a blob that does not decode is never rejected; it stays pending, and
    with it the row and the call of [generate]. *)
Theorem decode_failure_never_settles :
  (∀ (B : Browser) (svg : string) (e : Reason), @loadSVGtoIMG B svg ≠ Rejected e)
  ∧ @loadSVGtoIMG notAnImageBrowser "<html>404</html>" = Pending
  ∧ (@requestSVG demoTile notAnImageBrowser "0c2238" demoWorld).1 = Pending
  ∧ (@requestSVG demoTile notAnImageBrowser "ffffff" demoWorld).1 = Pending
  ∧ (@renderRow demoTile notAnImageBrowser ["0c2238"; "ff1000"] 0 demoWorld).1
    = Pending
  ∧ (@generateMosaic demoTile notAnImageBrowser demoImage None None demoWorld).1
    = Returns Pending.
Proof.
  split_and!.
  - intros B svg e. unfold loadSVGtoIMG. by destruct (decodes svg).
  - reflexivity.
  - vm_compute. reflexivity.
  - vm_compute. reflexivity.
  - vm_compute. reflexivity.
  - vm_compute. reflexivity.
Qed.

(** ** The grid *)

Lemma mapM_Some_fmap {A B : Type} (f : A → B) (l : list A) :
  mapM (M := option) (λ a, Some (f a)) l = Some (f <$> l).
Proof.
  apply mapM_Some. induction l as [|a l IH]; simpl; by constructor.
Qed.

Lemma range_Int (n : Z) : 0 ≤ n < 2 ^ 32 → range (JS.Int n) = Some (JS.upto n).
Proof.
  intros Hn. simpl.
  destruct (Z.leb_spec 0 n); [|lia]. destruct (Z.ltb_spec n (2 ^ 32)); [|lia]. done.
Qed.

Lemma mosaicArray_Int `{TileSize} (ctx : Img.t) (nx ny : Z) :
  0 ≤ nx < 2 ^ 32 → 0 ≤ ny < 2 ^ 32 →
  mosaicArray ctx (JS.Int nx) (JS.Int ny)
  = Some ((λ y, (λ x, tileColor ctx x y) <$> JS.upto nx) <$> JS.upto ny).
Proof.
  intros Hnx Hny. unfold mosaicArray. rewrite !range_Int by done.
  apply (mapM_Some_fmap (λ y, (λ x, tileColor ctx x y) <$> JS.upto nx)).
Qed.

(** With the tile size of the module the grid has one cell per tile of the
    clipped region. *)
Lemma gridOf_default `{TileSize} (img : Img.t) :
  0 < TILE_WIDTH → 0 < TILE_HEIGHT →
  0 ≤ Img.width img < 2 ^ 32 → 0 ≤ Img.height img < 2 ^ 32 →
  gridOf img None None
  = Some ((λ y, (λ x, tileColor (baseLayer img) x y)
                  <$> JS.upto (Img.width img / TILE_WIDTH))
            <$> JS.upto (Img.height img / TILE_HEIGHT)).
Proof.
  intros HW HH HW0 HH0. unfold gridOf. cbn [default].
  rewrite clip_width, clip_height, !divide_multiple by lia.
  apply mosaicArray_Int.
  - split; [apply Z.div_pos; lia|].
    apply Z.le_lt_trans with (Img.width img); [|lia].
    apply Z.div_le_upper_bound; nia.
  - split; [apply Z.div_pos; lia|].
    apply Z.le_lt_trans with (Img.height img); [|lia].
    apply Z.div_le_upper_bound; nia.
Qed.

Lemma sample_baseLayer_ext `{TileSize} (img1 img2 : Img.t) :
  Img.width img1 = Img.width img2 → Img.height img1 = Img.height img2 →
  (∀ x y, 0 ≤ x < Img.width img1 → 0 ≤ y < Img.height img1 →
          Img.pixel img1 x y = Img.pixel img2 x y) →
  clipImage img1 = clipImage img2
  ∧ ∀ x y, Img.sample (baseLayer img1) x y = Img.sample (baseLayer img2) x y.
Proof.
  intros Hw Hh Hpix.
  assert (Hclip : clipImage img1 = clipImage img2)
    by (unfold clipImage; by rewrite Hw, Hh).
  split; [done|]. intros x y.
  unfold baseLayer, drawClipped, Img.sample. cbn [Img.width Img.height Img.pixel].
  rewrite Hclip, <- Hw, <- Hh.
  destruct (_ && _) eqn:Hin; [|done].
  destruct (_ && _) eqn:Hin2 at 1; [|by rewrite Hin2].
  rewrite Hin2. apply Hpix.
  - destruct (Z.leb_spec 0 (offsetX (clipImage img2) + x)); [|done].
    destruct (Z.ltb_spec (offsetX (clipImage img2) + x) (Img.width img1)); [|done]. lia.
  - destruct (Z.leb_spec 0 (offsetX (clipImage img2) + x)); [|done].
    destruct (Z.ltb_spec (offsetX (clipImage img2) + x) (Img.width img1)); [|done].
    destruct (Z.leb_spec 0 (offsetY (clipImage img2) + y)); [|done].
    destruct (Z.ltb_spec (offsetY (clipImage img2) + y) (Img.height img1)); [|done]. lia.
Qed.

Lemma tileColor_ext `{TileSize} (ctx1 ctx2 : Img.t) (x y : Z) :
  (∀ x y, Img.sample ctx1 x y = Img.sample ctx2 x y) →
  tileColor ctx1 x y = tileColor ctx2 x y.
Proof.
  intros Hs. unfold tileColor, getImageData, rect. do 4 f_equal.
  f_equal. apply bind_ext_in. intros j _. apply bind_ext_in. intros i _.
  by rewrite Hs.
Qed.

Lemma mapM_option_ext {A B : Type} (f g : A → option B) (l : list A) :
  (∀ a, f a = g a) → mapM (M := option) f l = mapM (M := option) g l.
Proof.
  intros Hfg. induction l as [|a l IH]; simpl; [done|]. by rewrite Hfg, IH.
Qed.

Lemma mosaicArray_ext `{TileSize} (ctx1 ctx2 : Img.t) (xTotal yTotal : JS.num) :
  (∀ x y, Img.sample ctx1 x y = Img.sample ctx2 x y) →
  mosaicArray ctx1 xTotal yTotal = mosaicArray ctx2 xTotal yTotal.
Proof.
  intros Hs. unfold mosaicArray. destruct (range yTotal) as [ys|]; [|done].
  apply mapM_option_ext. intros y. destruct (range xTotal) as [xs|]; [|done].
  f_equal. apply list_fmap_ext. intros _ x _. by apply tileColor_ext.
Qed.

(** C7: the grid [generate] computes is the same whatever the state of the
    page it starts from, the glyph cache included, so two calls in a row with
    the same image and tile size compute the same grid; it is the grid
    [gridOf] of the image, and two images of the same size with the same
    pixels have the same grid. *)
Theorem grid_independent_of_cache `{TileSize} `{Browser} (img : Img.t)
    (tileWidth tileHeight : option Z) (w w' : World) :
  (generateMosaic_grid img tileWidth tileHeight w).1
  = (generateMosaic_grid img tileWidth tileHeight w').1
  ∧ (generateMosaic_grid img tileWidth tileHeight
       (generateMosaic img tileWidth tileHeight w).2).1
    = (generateMosaic_grid img tileWidth tileHeight w).1
  ∧ (generateMosaic_grid img tileWidth tileHeight w).1
    = gridOf img tileWidth tileHeight
  ∧ (∀ img2, Img.width img = Img.width img2 → Img.height img = Img.height img2 →
       (∀ x y, 0 ≤ x < Img.width img → 0 ≤ y < Img.height img →
               Img.pixel img x y = Img.pixel img2 x y) →
       gridOf img2 tileWidth tileHeight = gridOf img tileWidth tileHeight).
Proof.
  rewrite !generateMosaic_grid_spec. cbn [fst]. split_and!; [done..|].
  intros img2 Hw Hh Hpix.
  destruct (sample_baseLayer_ext img img2 Hw Hh Hpix) as [Hclip Hsample].
  unfold gridOf. rewrite Hclip. symmetry. by apply mosaicArray_ext.
Qed.

(** ** Images smaller than a tile *)

Section Small.
Context `{TileSize} `{Browser}.



End Small.


(** ** What the tile size of the module governs *)

Section Lattice.
Context `{TileSize} `{Browser}.

Lemma tiled_refl (w : World) : tiled w w.
Proof. split; [|done]. exists []. by rewrite app_nil_r. Qed.

Lemma tiled_trans (w1 w2 w3 : World) : tiled w1 w2 → tiled w2 w3 → tiled w1 w3.
Proof.
  intros [(tr1 & Ht1 & Hf1) Hk1] [(tr2 & Ht2 & Hf2) Hk2]. split; [|auto].
  exists (tr1 ++ tr2). split; [by rewrite Ht2, Ht1, app_assoc|].
  by apply Forall_app.
Qed.

Lemma tiled_log (es : list Event) (w : World) :
  Forall tile_event es → tiled w (log es w).
Proof. intros Hes. split; [|done]. by exists es. Qed.

Lemma tiled_clear (w : World) : tiled w (clearCachedSvgs w).
Proof.
  split; [exists []; by rewrite app_nil_r|].
  intros Hok k v Hk Hp. by rewrite clearCachedSvgs_cache in Hk.
Qed.

Lemma requestSVG_start_tiled (color : string) (w w1 : World) (t : Task) :
  requestSVG_start color w = (t, w1) → task_ok t ∧ tiled w w1.
Proof.
  unfold requestSVG_start. destruct (truthy _); intros [= <- <-].
  - split; [done|apply tiled_refl].
  - split; [by exists color|]. split; [|done].
    exists [Fetch (colorURL color)]. split; [done|].
    constructor; [by exists color|constructor].
Qed.

Lemma start_all_tiled (tileRow : list string) :
  ∀ (w w1 : World) (tasks : list Task),
    start_all tileRow w = (tasks, w1) → Forall task_ok tasks ∧ tiled w w1.
Proof.
  induction tileRow as [|color rest IH]; intros w w1 tasks; simpl.
  - intros [= <- <-]. split; [constructor|apply tiled_refl].
  - destruct (requestSVG_start color w) as [t wa] eqn:Ht.
    destruct (start_all rest wa) as [ts wb] eqn:Hts.
    intros [= <- <-].
    apply requestSVG_start_tiled in Ht as [Hok1 Ht1].
    apply IH in Hts as [Hok2 Ht2].
    split; [by constructor|by eapply tiled_trans].
Qed.

Lemma requestSVG_settle_tiled (t : Task) (w w' : World) (o : Outcome Glyph) :
  task_ok t → requestSVG_settle t w = (o, w') → tiled w w'.
Proof.
  destruct t as [svg|key url n]; simpl.
  - intros _ [= <- <-]. apply tiled_refl.
  - intros [color ->]. destruct (respond n url) as [svg|].
    + intros [= <- <-]. destruct (fits _ _ _); [|apply tiled_clear].
      split; [exists []; by rewrite app_nil_r|].
      intros Hok k v. cbn [localStorage setStorage].
      rewrite lookup_insert_Some. intros [[<- _]|[_ Hk]] Hp; [by exists color|].
      by apply (Hok k v).
    + intros [= <- <-]. apply tiled_refl.
Qed.

Lemma settle_all_tiled (sched : list (nat * Task)) :
  Forall (λ it, task_ok it.2) sched →
  ∀ (w w' : World) (settled : list (nat * Outcome Glyph)),
    settle_all sched w = (settled, w') → tiled w w'.
Proof.
  induction 1 as [|[i t] rest Hok _ IH]; intros w w' settled; simpl.
  - intros [= <- <-]. apply tiled_refl.
  - destruct (requestSVG_settle t w) as [o wa] eqn:Ho.
    destruct (settle_all rest wa) as [os wb] eqn:Hos.
    intros [= <- <-].
    eapply tiled_trans; [by eapply requestSVG_settle_tiled|by eapply IH].
Qed.

Lemma row_draws_tiled (svgs : list Glyph) (rowNum : nat) :
  Forall tile_event (row_draws svgs rowNum).
Proof.
  unfold row_draws. apply Forall_forall. intros e He.
  apply list_elem_of_join in He as (es & He & Hes).
  apply list_elem_of_lookup in Hes as [colNum Hes].
  apply list_lookup_imap_Some in Hes as (svg & _ & ->).
  apply elem_of_cons in He as [->|He]; [by exists colNum, rowNum|].
  apply list_elem_of_singleton in He as ->. by exists colNum, rowNum.
Qed.

Lemma renderRow_tiled (tileRow : list string) (rowNum : nat) (w w' : World)
    (o : Outcome unit) :
  renderRow tileRow rowNum w = (o, w') → tiled w w'.
Proof.
  unfold renderRow, row_settled.
  destruct (start_all tileRow (log [RowBegin rowNum] w)) as [tasks w1] eqn:Hstart.
  destruct (settle_all (arrival_order rowNum tasks) w1) as [settled w2] eqn:Hsettle.
  apply start_all_tiled in Hstart as [Hok Ht1].
  assert (Ht2 : tiled w1 w2).
  { eapply settle_all_tiled; [|done].
    rewrite arrival_order_perm. apply Forall_forall. intros [i t] Hit.
    apply list_elem_of_lookup in Hit as [j Hj].
    apply list_lookup_imap_Some in Hj as (t' & Ht' & [= _ ->]).
    rewrite Forall_forall in Hok. apply Hok. by eapply list_elem_of_lookup_2. }
  assert (Ht : tiled w w2).
  { eapply tiled_trans; [|done]. eapply tiled_trans; [|done].
    apply tiled_log. by repeat constructor. }
  destruct (Promise_all _ settled) as [svgs|e|]; intros [= <- <-]; try done.
  eapply tiled_trans; [done|]. rewrite draw_row_spec.
  eapply tiled_trans; [apply tiled_log, row_draws_tiled|].
  apply tiled_log. by repeat constructor.
Qed.

Lemma rows_from_tiled (rows : list (list string)) :
  ∀ (i : nat) (w w' : World) (o : Outcome unit),
    rows_from rows i w = (o, w') → tiled w w'.
Proof.
  induction rows as [|row rest IH]; intros i w w' o; simpl.
  - intros [= <- <-]. apply tiled_refl.
  - unfold and_then. destruct (renderRow row i w) as [o1 w1] eqn:Hrow.
    apply renderRow_tiled in Hrow.
    destruct o1 as [[]|e|]; [|by intros [= <- <-]..].
    intros Hrest%IH. by eapply tiled_trans.
Qed.

Lemma renderRow_canvas (tileRow : list string) (rowNum : nat) (w w' : World)
    (o : Outcome unit) :
  renderRow tileRow rowNum w = (o, w') → canvas w' = canvas w.
Proof.
  unfold renderRow.
  destruct (row_settled tileRow rowNum w) as [settled w2] eqn:Hset.
  apply row_settled_spec in Hset as [Hc2 _].
  destruct (Promise_all _ settled) as [svgs|e|]; intros [= <- <-]; try done.
  by rewrite draw_row_spec.
Qed.

(** The glyphs are recorded in the trace; the base layer stays the one
    [generateMosaic] has prepared. *)
Lemma rows_from_canvas (rows : list (list string)) :
  ∀ (i : nat) (w w' : World) (o : Outcome unit),
    rows_from rows i w = (o, w') → canvas w' = canvas w.
Proof.
  induction rows as [|row rest IH]; intros i w w' o; simpl.
  - by intros [= <- <-].
  - unfold and_then. destruct (renderRow row i w) as [o1 w1] eqn:Hrow.
    apply renderRow_canvas in Hrow.
    destruct o1 as [[]|e|]; [|by intros [= <- <-]..].
    intros Hrest%IH. congruence.
Qed.

(** A whole run lays out its events with the tile size of the module and
    leaves no entry of the glyph cache under another key. *)
Lemma generateMosaic_tiled (img : Img.t) (tileWidth tileHeight : option Z)
    (w : World) :
  let w' := (generateMosaic img tileWidth tileHeight w).2 in
  Forall tile_event (since w w') ∧ cache_keys_ok w'.
Proof.
  cbn zeta.
  assert (Hcleared : cache_keys_ok (setCanvas (baseLayer img) (clearCachedSvgs w))).
  { intros k v Hk Hp. cbn [localStorage setCanvas] in Hk.
    by rewrite clearCachedSvgs_cache in Hk. }
  rewrite generateMosaic_rows. cbn zeta.
  destruct (gridOf img tileWidth tileHeight) as [mosaic|]; cbn [snd].
  - destruct (rows_from mosaic 0 _) as [o w3] eqn:Hrows.
    apply rows_from_tiled in Hrows as [(tr & Ht & Htr) Hkeys].
    cbn [trace setCanvas clearCachedSvgs setStorage] in Ht.
    assert (Hsince : since w w3 = tr) by (by apply since_app).
    by destruct o as [[]|e|]; cbn [snd]; rewrite Hsince; auto.
  - split; [|done].
    rewrite (since_app w _ []); [constructor|]. cbn. by rewrite app_nil_r.
Qed.

End Lattice.

(** C10: the arguments [tileWidth] and [tileHeight] reach the run only
    through the two array lengths [width / tileWidth] and
    [height / tileHeight]. Every cell of the grid, whatever the arguments, is
    the average over the [TILE_WIDTH] by [TILE_HEIGHT] rectangle at
    [(TILE_WIDTH * x, TILE_HEIGHT * y)] with divisor
    [TILE_WIDTH * TILE_HEIGHT], so two runs with different arguments agree on
    every cell they both have; the clip is that of the module's tile size,
    tiles are cleared and drawn at multiples of the module's tile size, and
    the cache is keyed by the module's tile size. *)
Theorem tile_arguments_only_size_the_grid `{TileSize} `{Browser} (img : Img.t)
    (tileWidth tileHeight : option Z) (w : World) :
  0 < TILE_WIDTH → 0 < TILE_HEIGHT →
  (∀ tileWidth2 tileHeight2,
     JS.divide (width (clipImage img)) (default TILE_WIDTH tileWidth)
     = JS.divide (width (clipImage img)) (default TILE_WIDTH tileWidth2) →
     JS.divide (height (clipImage img)) (default TILE_HEIGHT tileHeight)
     = JS.divide (height (clipImage img)) (default TILE_HEIGHT tileHeight2) →
     generateMosaic img tileWidth tileHeight w
     = generateMosaic img tileWidth2 tileHeight2 w)
  ∧ (∀ grid (x y : nat) row c,
       gridOf img tileWidth tileHeight = Some grid →
       grid !! y = Some row → row !! x = Some c →
       c = tileColor (baseLayer img) (Z.of_nat x) (Z.of_nat y)
       ∧ c = average_color
               (rect (baseLayer img) (TILE_WIDTH * Z.of_nat x)
                     (TILE_HEIGHT * Z.of_nat y) TILE_WIDTH TILE_HEIGHT)
               (TILE_WIDTH * TILE_HEIGHT))
  ∧ (∀ tileWidth2 tileHeight2 grid grid2 (x y : nat) row row2 c c2,
       gridOf img tileWidth tileHeight = Some grid →
       gridOf img tileWidth2 tileHeight2 = Some grid2 →
       grid !! y = Some row → row !! x = Some c →
       grid2 !! y = Some row2 → row2 !! x = Some c2 →
       c = c2)
  ∧ canvas (generateMosaic img tileWidth tileHeight w).2 = baseLayer img
  ∧ Forall tile_event (since w (generateMosaic img tileWidth tileHeight w).2)
  ∧ cache_keys_ok (generateMosaic img tileWidth tileHeight w).2.
Proof.
  intros HW HH.
  assert (Hcell : ∀ tw th grid (x y : nat) row c,
    gridOf img tw th = Some grid → grid !! y = Some row → row !! x = Some c →
    c = tileColor (baseLayer img) (Z.of_nat x) (Z.of_nat y)).
  { intros tw th grid x y row c Hgrid Hrow Hc.
    by destruct (mosaicArray_lookup _ _ _ _ _ _ _ _ Hgrid Hrow Hc)
      as (nx & ny & _ & _ & _ & _ & ->). }
  split_and!.
  - intros tw2 th2 Hx Hy. unfold generateMosaic, generateMosaic_grid.
    cbn zeta. by rewrite Hx, Hy.
  - intros grid x y row c Hgrid Hrow Hc.
    rewrite (Hcell _ _ _ _ _ _ _ Hgrid Hrow Hc).
    split; [done|]. by apply tileColor_average.
  - intros tw2 th2 grid grid2 x y row row2 c c2 Hg Hg2 Hrow Hc Hrow2 Hc2.
    rewrite (Hcell _ _ _ _ _ _ _ Hg Hrow Hc).
    by rewrite (Hcell _ _ _ _ _ _ _ Hg2 Hrow2 Hc2).
  - rewrite generateMosaic_rows. cbn zeta.
    destruct (gridOf img tileWidth tileHeight) as [mosaic|]; [|done].
    destruct (rows_from mosaic 0 _) as [o w3] eqn:Hrows.
    apply rows_from_canvas in Hrows. by destruct o as [[]|e|].
  - apply generateMosaic_tiled.
  - apply generateMosaic_tiled.
Qed.

(** ** The theorems on the demonstration page *)


(** The second tile of the only row fails to load. *)
Lemma row_failure_aborts_demo :
  ∃ e' w2, @generateMosaic demoTile flakyBrowser demoImage None None demoWorld
           = (Returns (Rejected e'), w2).
Proof.
  destruct (@row_failure_aborts demoTile flakyBrowser demoImage None None
    demoWorld (setCanvas (@baseLayer demoTile demoImage) (clearCachedSvgs demoWorld))
    (@row_settled demoTile flakyBrowser ["0c2238"; "ff1000"] 0
       (setCanvas (@baseLayer demoTile demoImage) (clearCachedSvgs demoWorld))).2
    [] [] ["0c2238"; "ff1000"]
    (@row_settled demoTile flakyBrowser ["0c2238"; "ff1000"] 0
       (setCanvas (@baseLayer demoTile demoImage) (clearCachedSvgs demoWorld))).1
    1%nat (NetworkError "http://localhost:8765/color/ff1000"))
    as ((e' & _ & _ & Hgen) & _).
  - vm_compute. reflexivity.
  - reflexivity.
  - destruct (row_settled _ _ _); reflexivity.
  - vm_compute. constructor. constructor.
  - exists e'. eexists. exact Hgen.
Defined.


(** [generate] called with a tile width of 1 on a page whose tiles are two
    pixels wide: four cells, the last two beyond the canvas. *)
Lemma tile_arguments_only_size_the_grid_demo :
  @gridOf demoTile demoImage (Some 1) None
  = Some [["0c2238"; "ff1000"; "000000"; "000000"]]
  ∧ canvas (@generateMosaic demoTile demoBrowser demoImage (Some 1) None demoWorld).2
    = @baseLayer demoTile demoImage
  ∧ @cache_keys_ok demoTile
      (@generateMosaic demoTile demoBrowser demoImage (Some 1) None demoWorld).2.
Proof.
  split; [vm_compute; reflexivity|].
  destruct (@tile_arguments_only_size_the_grid demoTile demoBrowser demoImage
    (Some 1) None demoWorld) as (_ & _ & _ & Hcanvas & _ & Hkeys);
    [concrete_size..|].
  split; [exact Hcanvas|exact Hkeys].
Defined.

(** ** Runs of the demonstration page *)

(** One row of two tiles: both glyphs are requested, then both tiles are
    drawn, from the left. *)
Example demo_run_trace :
  trace (@generateMosaic demoTile demoBrowser demoImage None None demoWorld).2
  = [RowBegin 0;
     Fetch "http://localhost:8765/color/0c2238";
     Fetch "http://localhost:8765/color/ff1000";
     ClearRect 0 0 2 2;
     DrawImage "<svg http://localhost:8765/color/0c2238>" 0 0;
     ClearRect 2 0 2 2;
     DrawImage "<svg http://localhost:8765/color/ff1000>" 2 0;
     RowDone 0].
Proof. vm_compute. reflexivity. Qed.

(** The stale glyph is gone, the two new ones are cached, the other key of
    the store is still there. *)
Example demo_run_store :
  let store :=
    localStorage
      (@generateMosaic demoTile demoBrowser demoImage None None demoWorld).2 in
  store !! "mosaic-ffffff-2-2" = None
  ∧ store !! "mosaic-0c2238-2-2" = Some "<svg http://localhost:8765/color/0c2238>"
  ∧ store !! "mosaic-ff1000-2-2" = Some "<svg http://localhost:8765/color/ff1000>"
  ∧ store !! "theme" = Some "dark".
Proof. vm_compute. done. Qed.

(** A tile width that does not divide the clipped width makes [Array]
    throw. *)
Example demo_run_range_error :
  (@generateMosaic demoTile demoBrowser demoImage (Some 3) None demoWorld).1
  = Throws RangeError.
Proof. vm_compute. reflexivity. Qed.

(** With the second request failing nothing is drawn. *)
Example demo_run_rejected :
  (@generateMosaic demoTile flakyBrowser demoImage None None demoWorld).1
  = Returns (Rejected (NetworkError "http://localhost:8765/color/ff1000"))
  ∧ trace (@generateMosaic demoTile flakyBrowser demoImage None None demoWorld).2
    = [RowBegin 0;
       Fetch "http://localhost:8765/color/0c2238";
       Fetch "http://localhost:8765/color/ff1000"].
Proof. vm_compute. done. Qed.

(** A trace in which a row begins before the previous one is done is not
    serial, nor is one that draws outside the band of its row. *)
Example serial_refuses_overlap :
  @serial demoTile 0 None [RowBegin 0; RowBegin 1; RowDone 0; RowDone 1] = false
  ∧ @serial demoTile 0 None [RowBegin 0; ClearRect 0 2 2 2; RowDone 0] = false
  ∧ @serial demoTile 0 None [RowBegin 0; ClearRect 0 0 2 2; RowDone 0;
                            RowBegin 1; ClearRect 0 2 2 2; RowDone 1] = true.
Proof. vm_compute. done. Qed.

Example toHex_examples :
  toHex 0 = "00" ∧ toHex 255 = "ff" ∧ toHex 16 = "10" ∧ toHex 9 = "09".
Proof. vm_compute. done. Qed.

(** * Further properties of the module *)

(** ** The clipper keeps the image centred *)

(** X1: the clipped rectangle lies inside the image, drops less than one
    tile in each direction, and is centred: the margin on the right (below)
    exceeds the margin on the left (above) by at most one pixel. *)
Theorem clipImage_centred `{TileSize} (img : Img.t) :
  0 < TILE_WIDTH → 0 < TILE_HEIGHT → 0 ≤ Img.width img → 0 ≤ Img.height img →
  let c := clipImage img in
  (0 ≤ offsetX c ∧ 0 ≤ width c ∧ offsetX c + width c ≤ Img.width img)
  ∧ (0 ≤ offsetY c ∧ 0 ≤ height c ∧ offsetY c + height c ≤ Img.height img)
  ∧ Img.width img - width c < TILE_WIDTH
  ∧ Img.height img - height c < TILE_HEIGHT
  ∧ 0 ≤ (Img.width img - width c - offsetX c) - offsetX c ≤ 1
  ∧ 0 ≤ (Img.height img - height c - offsetY c) - offsetY c ≤ 1.
Proof.
  intros HW HH HW0 HH0. cbn zeta. cbn [clipImage width height offsetX offsetY].
  unfold JS.floor_div. rewrite !rem_nonneg by lia.
  pose proof (Z.mod_pos_bound (Img.width img) TILE_WIDTH HW) as Hrw.
  pose proof (Z.mod_pos_bound (Img.height img) TILE_HEIGHT HH) as Hrh.
  pose proof (Z.mod_le (Img.width img) TILE_WIDTH HW0 HW) as Hlw.
  pose proof (Z.mod_le (Img.height img) TILE_HEIGHT HH0 HH) as Hlh.
  pose proof (Z.div_mod (Img.width img mod TILE_WIDTH) 2) as Hdw.
  pose proof (Z.div_mod (Img.height img mod TILE_HEIGHT) 2) as Hdh.
  pose proof (Z.mod_pos_bound (Img.width img mod TILE_WIDTH) 2) as Hmw.
  pose proof (Z.mod_pos_bound (Img.height img mod TILE_HEIGHT) 2) as Hmh.
  lia.
Qed.

(** An image of eleven by seven pixels under tiles of four by four. *)
Lemma clipImage_centred_demo :
  let T := {| TILE_WIDTH := 4; TILE_HEIGHT := 4 |} in
  let img := {| Img.width := 11; Img.height := 7; Img.pixel := λ _ _, transparent |} in
  @clipImage T img = {| width := 8; height := 4; offsetX := 1; offsetY := 1 |}
  ∧ 0 ≤ (11 - width (@clipImage T img) - offsetX (@clipImage T img))
        - offsetX (@clipImage T img) ≤ 1.
Proof.
  cbn zeta. split; [reflexivity|].
  exact (proj1 (proj2 (proj2 (proj2 (proj2
    (@clipImage_centred {| TILE_WIDTH := 4; TILE_HEIGHT := 4 |}
       {| Img.width := 11; Img.height := 7; Img.pixel := λ _ _, transparent |}
       ltac:(cbv; reflexivity) ltac:(cbv; reflexivity)
       ltac:(cbv; discriminate) ltac:(cbv; discriminate))))))).
Defined.

(** ** Clearing the cache *)

Lemma clearCachedSvgs_lookup (w : World) (k : string) :
  localStorage (clearCachedSvgs w) !! k
  = if String.prefix "mosaic-" k then None else localStorage w !! k.
Proof.
  destruct (String.prefix "mosaic-" k) eqn:Hk.
  - by apply clearCachedSvgs_cache.
  - by apply clearCachedSvgs_other.
Qed.

Lemma clearCachedSvgs_idem (w : World) :
  clearCachedSvgs (clearCachedSvgs w) = clearCachedSvgs w.
Proof.
  assert (Hstore : localStorage (clearCachedSvgs (clearCachedSvgs w))
                   = localStorage (clearCachedSvgs w)).
  { apply map_eq. intros k. rewrite !clearCachedSvgs_lookup.
    by destruct (String.prefix "mosaic-" k). }
  unfold clearCachedSvgs at 1. unfold clearCachedSvgs at 1 in Hstore.
  cbn [localStorage setStorage] in Hstore. unfold setStorage. rewrite Hstore.
  reflexivity.
Qed.

(** X2: [clearCachedSvgs] removes exactly the entries whose key begins with
    "mosaic-" and leaves every other entry of [localStorage] as it is; it keeps
    the canvas, the trace and the request counter, and clearing twice is
    clearing once. *)
Theorem clearCachedSvgs_exact (w : World) :
  (∀ k, localStorage (clearCachedSvgs w) !! k
        = if String.prefix "mosaic-" k then None else localStorage w !! k)
  ∧ canvas (clearCachedSvgs w) = canvas w
  ∧ trace (clearCachedSvgs w) = trace w
  ∧ issued (clearCachedSvgs w) = issued w
  ∧ clearCachedSvgs (clearCachedSvgs w) = clearCachedSvgs w.
Proof.
  split_and!; [apply clearCachedSvgs_lookup|done..|apply clearCachedSvgs_idem].
Qed.

(** ** Array lengths *)

Lemma lookup_upto_lt (n : Z) (i : nat) :
  Z.of_nat i < n → JS.upto n !! i = Some (Z.of_nat i).
Proof.
  intros Hi. unfold JS.upto. rewrite list_lookup_fmap, lookup_seq_lt by lia.
  done.
Qed.

(** X3: [range] gives the numbers 0, 1, ..., n-1 in this order when its
    argument is an integer n with 0 <= n < 2^32, and throws otherwise;
    applied to a quotient [a / b] it succeeds exactly when [b] is not zero,
    divides [a], and the quotient is such an n. *)
Theorem range_exact (num : JS.num) (a b : Z) :
  (∀ l, range num = Some l ↔
        ∃ n, num = JS.Int n ∧ 0 ≤ n < 2 ^ 32 ∧ length l = Z.to_nat n
             ∧ ∀ i : nat, Z.of_nat i < n → l !! i = Some (Z.of_nat i))
  ∧ (range (JS.divide a b) = None ↔
     b = 0 ∨ a mod b ≠ 0 ∨ a / b < 0 ∨ 2 ^ 32 ≤ a / b).
Proof.
  split.
  - intros l. split.
    + destruct num as [n|]; simpl; [|done].
      destruct (Z.leb_spec 0 n); simpl; [|done].
      destruct (Z.ltb_spec n (2 ^ 32)); [|done]. intros [= <-].
      exists n. split_and!; [done|lia|lia|apply length_upto|].
      intros i Hi. by apply lookup_upto_lt.
    + intros (n & -> & Hn & Hlen & Hl). rewrite range_Int by done. f_equal.
      apply list_eq. intros i. destruct (decide (Z.of_nat i < n)) as [Hi|Hi].
      * by rewrite lookup_upto_lt, Hl.
      * rewrite !lookup_ge_None_2; [done|lia|rewrite length_upto; lia].
  - unfold JS.divide. destruct (Z.eqb_spec b 0) as [->|Hb]; [by split; auto|].
    destruct (Z.eqb_spec (a mod b) 0) as [Hmod|Hmod]; [|by split; auto].
    simpl.
    destruct (Z.leb_spec 0 (a / b)), (Z.ltb_spec (a / b) (2 ^ 32)); simpl;
      split; intros Hx; try done; try lia; exfalso; lia.
Qed.

(** ** The fold of [totalColor] *)

Lemma channel_sum_perm (f : Pixel → byte) (ps1 ps2 : list Pixel) :
  ps1 ≡ₚ ps2 → channel_sum f ps1 = channel_sum f ps2.
Proof.
  induction 1 as [|p l1 l2 _ IH|p q l|l1 l2 l3 _ IH1 _ IH2]; simpl; lia.
Qed.

(** X4: the sums [totalColor] accumulates over the data of a tile do not
    depend on the order of the pixels: two tiles with the same pixels in any
    order fold to the same three sums and get the same colour. *)
Theorem totalColor_order_irrelevant (ps1 ps2 : list Pixel) (n : Z) :
  ps1 ≡ₚ ps2 →
  JS.reduce totalColor (ps1 ≫= channels) [0; 0; 0]
  = JS.reduce totalColor (ps2 ≫= channels) [0; 0; 0]
  ∧ JS.reduce totalColor (ps1 ≫= channels) [0; 0; 0]
    = [channel_sum red ps1; channel_sum green ps1; channel_sum blue ps1]
  ∧ average_color ps1 n = average_color ps2 n.
Proof.
  intros Hperm. unfold JS.reduce, channels.
  rewrite !reduce_totalColor by done. rewrite !Z.add_0_l.
  unfold average_color.
  by rewrite !(channel_sum_perm _ ps1 ps2 Hperm).
Qed.

(** Two pixels in the two possible orders. *)
Lemma totalColor_order_irrelevant_demo :
  let p := {| red := x0c; green := x22; blue := x38; alpha := xff |} in
  let q := {| red := xff; green := x10; blue := x00; alpha := x80 |} in
  JS.reduce totalColor ([p; q] ≫= channels) [0; 0; 0]
  = JS.reduce totalColor ([q; p] ≫= channels) [0; 0; 0].
Proof.
  cbn zeta.
  exact (proj1 (totalColor_order_irrelevant
    [{| red := x0c; green := x22; blue := x38; alpha := xff |};
     {| red := xff; green := x10; blue := x00; alpha := x80 |}]
    [{| red := xff; green := x10; blue := x00; alpha := x80 |};
     {| red := x0c; green := x22; blue := x38; alpha := xff |}]
    2 (Permutation_swap _ _ []))).
Defined.

(** ** Reading the colour back *)

(** X5: on the values a channel average can take, 0 to 255, [toHex] gives
    exactly two characters that read back as the value in base 16; so two
    averages are written alike only when they are equal. *)
Theorem toHex_round_trip (a b : Z) :
  0 ≤ a ≤ 255 → 0 ≤ b ≤ 255 →
  String.length (toHex a) = 2%nat
  ∧ hexValue (toHex a) = Some a
  ∧ (toHex a = toHex b → a = b).
Proof.
  intros Ha Hb.
  assert (Hall : forallb (λ n, (String.length (toHex n) =? 2)%nat
                               && bool_decide (hexValue (toHex n) = Some n))
                         (JS.upto 256) = true) by (vm_compute; reflexivity).
  rewrite forallb_forall in Hall.
  assert (Hone : ∀ v, 0 ≤ v ≤ 255 →
            String.length (toHex v) = 2%nat ∧ hexValue (toHex v) = Some v).
  { intros v Hv.
    assert (Hin : In v (JS.upto 256)) by (apply list_elem_of_In, elem_of_upto; lia).
    apply Hall, andb_prop in Hin as [Hlen Hval].
    split; [by apply Nat.eqb_eq|by apply bool_decide_eq_true in Hval]. }
  destruct (Hone a Ha) as [Hlen Hval]. split_and!; [done..|].
  intros Heq. destruct (Hone b Hb) as [_ Hvalb]. rewrite Heq in Hval. congruence.
Qed.

(** The averages 12 and 192. *)
Lemma toHex_round_trip_demo :
  toHex 12 = "0c" ∧ hexValue (toHex 12) = Some 12 ∧ (toHex 12 = toHex 192 → 12 = 192).
Proof.
  split; [reflexivity|].
  exact (proj2 (toHex_round_trip 12 192 ltac:(lia) ltac:(lia))).
Defined.

(** ** The cells of a grid *)

Lemma average_color_length (ps : list Pixel) (n : Z) :
  String.length (average_color ps n) = 6%nat.
Proof. reflexivity. Qed.

(** X6: whatever the tile-size arguments, every cell of the grid is a
    string of six characters, and a cell whose rectangle starts at or beyond
    the right or the lower edge of the canvas (which the arguments can ask
    for when they are smaller than the tile size of the module) is
    "000000". *)
Theorem grid_cells_are_colours `{TileSize} (img : Img.t)
    (tileWidth tileHeight : option Z) (grid : list (list string)) (x y : nat)
    (row : list string) (c : string) :
  0 < TILE_WIDTH → 0 < TILE_HEIGHT →
  gridOf img tileWidth tileHeight = Some grid →
  grid !! y = Some row → row !! x = Some c →
  String.length c = 6%nat
  ∧ (width (clipImage img) ≤ TILE_WIDTH * Z.of_nat x
     ∨ height (clipImage img) ≤ TILE_HEIGHT * Z.of_nat y →
     c = "000000").
Proof.
  intros HW HH Hgrid Hrow Hc.
  destruct (mosaicArray_lookup _ _ _ _ _ _ _ _ Hgrid Hrow Hc)
    as (nx & ny & _ & _ & _ & _ & ->).
  rewrite tileColor_average by done. split; [apply average_color_length|].
  intros Hout.
  assert (Hblack : ∀ p,
    p ∈ rect (baseLayer img) (TILE_WIDTH * Z.of_nat x) (TILE_HEIGHT * Z.of_nat y)
             TILE_WIDTH TILE_HEIGHT → p = transparent).
  { intros p Hp. unfold rect in Hp.
    apply list_elem_of_bind in Hp as (j & Hp & Hj%elem_of_upto).
    apply list_elem_of_bind in Hp as (i & Hp & Hi%elem_of_upto).
    apply list_elem_of_singleton in Hp as ->.
    unfold Img.sample, baseLayer, drawClipped. cbn [Img.width Img.height Img.pixel].
    destruct Hout as [Hout|Hout].
    - destruct (Z.ltb_spec (TILE_WIDTH * Z.of_nat x + i) (width (clipImage img)));
        [lia|]. by rewrite andb_false_r.
    - destruct (Z.ltb_spec (TILE_HEIGHT * Z.of_nat y + j) (height (clipImage img)));
        [lia|]. by rewrite andb_false_r. }
  unfold average_color.
  rewrite (channel_sum_const red _ 0), (channel_sum_const green _ 0),
    (channel_sum_const blue _ 0)
    by (intros p Hp; by rewrite (Hblack p Hp)).
  rewrite !Z.mul_0_l, !Z.div_0_l by lia. reflexivity.
Qed.

(** [generate] called with a tile width of 1 on the demonstration page: the
    cell in column 2 lies beyond the canvas. *)
Lemma grid_cells_are_colours_demo :
  @gridOf demoTile demoImage (Some 1) None
  = Some [["0c2238"; "ff1000"; "000000"; "000000"]]
  ∧ String.length "000000" = 6%nat.
Proof.
  split; [vm_compute; reflexivity|].
  refine (proj1 (@grid_cells_are_colours demoTile demoImage (Some 1) None
    [["0c2238"; "ff1000"; "000000"; "000000"]] 2 0
    ["0c2238"; "ff1000"; "000000"; "000000"] "000000" _ _ _ _ _));
    [concrete_size|concrete_size|vm_compute; reflexivity|reflexivity|reflexivity].
Defined.

(** ** Keys and addresses *)

Lemma string_app_length (a b : string) :
  String.length (a +:+ b) = (String.length a + String.length b)%nat.
Proof.
  induction a as [|c a IH]; [done|].
  change (S (String.length (a +:+ b)) = S (String.length a + String.length b)).
  by rewrite IH.
Qed.

Lemma string_app_inv_head (p a b : string) : p +:+ a = p +:+ b → a = b.
Proof.
  induction p as [|c p IH]; intros Heq; [exact Heq|].
  change (String c (p +:+ a) = String c (p +:+ b)) in Heq.
  injection Heq as Heq. by apply IH.
Qed.

Lemma string_app_inv_tail (s : string) (a : string) :
  ∀ b, a +:+ s = b +:+ s → a = b.
Proof.
  induction a as [|c a IH]; intros [|d b] Heq.
  - done.
  - apply (f_equal String.length) in Heq.
    change (String.length s = S (String.length (b +:+ s))) in Heq.
    rewrite string_app_length in Heq. lia.
  - apply (f_equal String.length) in Heq.
    change (S (String.length (a +:+ s)) = String.length s) in Heq.
    rewrite string_app_length in Heq. lia.
  - change (String c (a +:+ s) = String d (b +:+ s)) in Heq.
    injection Heq as -> Heq. f_equal. by apply IH.
Qed.

(** X7: two colours have the same cache key only when they are the same
    colour, and likewise the same request address; every cache key begins
    with "mosaic-", so [clearCachedSvgs] removes it. *)
Theorem storageKey_injective `{TileSize} (color1 color2 : string) :
  (storageKey color1 = storageKey color2 ↔ color1 = color2)
  ∧ (colorURL color1 = colorURL color2 ↔ color1 = color2)
  ∧ String.prefix "mosaic-" (storageKey color1) = true
  ∧ (∀ w, localStorage (clearCachedSvgs w) !! storageKey color1 = None).
Proof.
  split_and!.
  - split; [|by intros ->]. unfold storageKey. intros Heq.
    apply string_app_inv_head in Heq. by apply string_app_inv_tail in Heq.
  - split; [|by intros ->]. unfold colorURL. apply string_app_inv_head.
  - apply storageKey_prefix.
  - intros w. apply clearCachedSvgs_cache, storageKey_prefix.
Qed.

(** ** One resolution *)


(** ** The requests of a row *)

Section Requests.
Context `{TileSize} `{Browser}.

Lemma task_for_mono (n0 n1 : nat) (store : gmap string string) (color : string)
    (t : Task) :
  (n0 ≤ n1)%nat → task_for n1 store color t → task_for n0 store color t.
Proof.
  intros Hle. destruct t as [svg|key url n]; simpl; [done|].
  intros (-> & -> & Hn & Hmiss). split_and!; [done..|lia|done].
Qed.

(** The synchronous part of a row: one request per colour the store cannot
    serve, in the order of the row, duplicates included, and one task per
    tile. *)
Lemma start_all_requests (tileRow : list string) :
  ∀ (w w1 : World) (tasks : list Task),
    start_all tileRow w = (tasks, w1) →
    localStorage w1 = localStorage w
    ∧ trace w1 = trace w ++ (Fetch ∘ colorURL <$> uncached (localStorage w) tileRow)
    ∧ issued w1 = (issued w + length (uncached (localStorage w) tileRow))%nat
    ∧ Forall2 (task_for (issued w) (localStorage w)) tileRow tasks.
Proof.
  induction tileRow as [|color rest IH]; intros w w1 tasks; simpl.
  - intros [= <- <-]. split_and!; [done|by rewrite app_nil_r|lia|constructor].
  - destruct (requestSVG_start color w) as [t wa] eqn:Ht.
    destruct (start_all rest wa) as [ts wb] eqn:Hts.
    intros [= <- <-]. apply IH in Hts as (Hs & Htr & Hi & Htasks).
    unfold requestSVG_start in Ht. unfold uncached in *. simpl.
    destruct (truthy (localStorage w !! storageKey color)) eqn:Htruthy;
      injection Ht as <- <-; simpl in *.
    + split_and!; [done..|]. constructor; [|done].
      apply truthy_Some in Htruthy as (svg & Hsvg & Hne). by rewrite Hsvg.
    + split_and!; [done| |lia|].
      * rewrite Htr. by rewrite <- app_assoc.
      * constructor; [done|].
        eapply Forall2_impl; [done|]. intros c t. apply task_for_mono. lia.
Qed.

End Requests.

(** X9: up to its fan-in a row sends exactly one request per tile whose
    colour the store cannot serve when the row begins, in the order of the
    tiles; a colour that occurs several times in the row is requested as many
    times, since no answer is handled before every tile has been looked up. *)
Theorem row_requests_uncached_tiles `{TileSize} `{Browser}
    (tileRow : list string) (rowNum : nat) (w : World) :
  let wf := (row_settled tileRow rowNum w).2 in
  since w wf
  = RowBegin rowNum :: (Fetch ∘ colorURL <$> uncached (localStorage w) tileRow)
  ∧ issued wf = (issued w + length (uncached (localStorage w) tileRow))%nat
  ∧ (∀ color, localStorage w !! storageKey color = None →
       List.filter (λ c, bool_decide (c = color)) (uncached (localStorage w) tileRow)
       = List.filter (λ c, bool_decide (c = color)) tileRow).
Proof.
  cbn zeta. unfold row_settled.
  destruct (start_all tileRow (log [RowBegin rowNum] w)) as [tasks w1] eqn:Hstart.
  destruct (settle_all (arrival_order rowNum tasks) w1) as [settled w2] eqn:Hsettle.
  apply start_all_requests in Hstart as (Hs & Htr & Hi & _).
  apply settle_all_spec in Hsettle as (_ & Ht2 & _ & Hi2).
  cbn [snd]. split_and!.
  - apply since_app. rewrite Ht2, Htr. cbn [trace log localStorage].
    by rewrite <- app_assoc.
  - by rewrite Hi2, Hi.
  - intros color Hnone. unfold uncached. clear -Hnone.
    induction tileRow as [|c rest IH]; [done|].
    cbn [List.filter]. destruct (decide (c = color)) as [->|Hne].
    + rewrite Hnone. cbn [truthy negb List.filter].
      rewrite !bool_decide_eq_true_2 by done. by rewrite IH.
    + rewrite (bool_decide_eq_false_2 (c = color)) by done.
      destruct (negb _); [|done]. cbn [List.filter].
      by rewrite bool_decide_eq_false_2.
Qed.

(** ** What [Promise.all] hands to the drawing *)

Section Values.
Context `{TileSize} `{Browser}.

Lemma imap_pair_elem (tasks : list Task) (i : nat) (t : Task) :
  (i, t) ∈ imap pair tasks ↔ tasks !! i = Some t.
Proof.
  rewrite list_elem_of_lookup. split.
  - intros (j & Hj). apply list_lookup_imap_Some in Hj as (t' & Ht' & [= -> ->]).
    done.
  - intros Ht. exists i. apply list_lookup_imap_Some. by exists t.
Qed.

Lemma settled_elem (tasks : list Task) (sched : list (nat * Task))
    (i : nat) (o : Outcome Glyph) :
  sched ≡ₚ imap pair tasks →
  (i, o) ∈ ((λ it : nat * Task, (it.1, task_outcome it.2)) <$> sched)
  ↔ ∃ t, tasks !! i = Some t ∧ o = task_outcome t.
Proof.
  intros Hperm. rewrite list_elem_of_fmap. split.
  - intros ([j t] & [= -> ->] & Hin). rewrite Hperm in Hin.
    apply imap_pair_elem in Hin. by exists t.
  - intros (t & Ht & ->). exists (i, t). split; [done|].
    rewrite Hperm. by apply imap_pair_elem.
Qed.

(** The value [Promise.all] keeps for column [i] is the glyph of the task of
    column [i], in whatever order the tasks settled. *)
Lemma value_at_tasks (tasks : list Task) (sched : list (nat * Task))
    (i : nat) (g : Glyph) :
  sched ≡ₚ imap pair tasks →
  value_at ((λ it : nat * Task, (it.1, task_outcome it.2)) <$> sched) i = Some g
  ↔ ∃ t, tasks !! i = Some t ∧ task_outcome t = Resolved g.
Proof.
  intros Hperm.
  assert (Hto : ∀ g', value_at ((λ it : nat * Task, (it.1, task_outcome it.2))
                                  <$> sched) i = Some g' →
                      ∃ t, tasks !! i = Some t ∧ task_outcome t = Resolved g').
  { intros g' Hval. apply head_omap_elem in Hval as ([j o] & Hin & Hjo).
    simpl in Hjo. destruct o as [g0| |]; try done.
    destruct (Nat.eqb_spec j i) as [->|]; [|done]. injection Hjo as ->.
    apply (settled_elem tasks sched) in Hin as (t & Ht & Ho); [|done].
    by exists t. }
  split; [apply Hto|].
  intros (t & Ht & Ho).
  assert (Hin : (i, Resolved g)
                ∈ ((λ it : nat * Task, (it.1, task_outcome it.2)) <$> sched)).
  { apply (settled_elem tasks sched); [done|]. by exists t. }
  destruct (head_omap_Some
    (λ s : nat * Outcome Glyph,
       match s.2 with
       | Resolved g0 => if (s.1 =? i)%nat then Some g0 else None
       | _ => None
       end) _ (i, Resolved g) g Hin) as [g' Hg'].
  { simpl. by rewrite Nat.eqb_refl. }
  unfold value_at. rewrite Hg'.
  destruct (Hto g' Hg') as (t' & Ht' & Ho'). congruence.
Qed.

(** [Promise.all] resolves exactly when every task of the row resolves, with
    the glyphs in the order of the columns. *)
Lemma Promise_all_tasks (tasks : list Task) (sched : list (nat * Task))
    (svgs : list Glyph) :
  sched ≡ₚ imap pair tasks →
  Promise_all (length tasks)
    ((λ it : nat * Task, (it.1, task_outcome it.2)) <$> sched) = Resolved svgs
  ↔ Forall2 (λ t g, task_outcome t = Resolved g) tasks svgs.
Proof.
  intros Hperm. set (settled := _ <$> sched). split.
  - unfold Promise_all. destruct (first_rejection settled); [done|].
    destruct (mapM _ _) as [vs|] eqn:Hvs; [|done]. intros [= <-].
    apply mapM_Some in Hvs.
    apply Forall2_same_length_lookup_2.
    + apply Forall2_length in Hvs. by rewrite length_seq in Hvs.
    + intros i t g Ht Hg.
      destruct (Forall2_lookup_r _ _ _ _ _ Hvs Hg) as (j & Hj & Hval).
      apply lookup_seq in Hj as [-> _]. simpl in Hval.
      apply (value_at_tasks tasks sched) in Hval as (t' & Ht' & Ho'); [|done].
      congruence.
  - intros Hall. unfold Promise_all.
    destruct (first_rejection settled) as [e|] eqn:Hrej.
    + apply head_omap_elem in Hrej as ([j o] & Hin & Hjo). simpl in Hjo.
      destruct o as [|e'|]; try done.
      apply (settled_elem tasks sched) in Hin as (t & Ht & Ho); [|done].
      destruct (Forall2_lookup_l _ _ _ _ _ Hall Ht) as (g & _ & Hg). congruence.
    + assert (Hvs : mapM (M := option) (value_at settled) (seq 0 (length tasks))
                    = Some svgs); [|by rewrite Hvs].
      apply mapM_Some, Forall2_same_length_lookup_2.
      * rewrite length_seq. by apply Forall2_length in Hall.
      * intros k i g Hi Hg. apply lookup_seq in Hi as [-> _]. simpl.
        destruct (Forall2_lookup_r _ _ _ _ _ Hall Hg) as (t & Ht & Ho).
        apply (value_at_tasks tasks sched); [done|]. by exists t.
Qed.

Lemma task_for_glyph (n0 : nat) (store : gmap string string) (color : string)
    (t : Task) (g : Glyph) :
  task_for n0 store color t → task_outcome t = Resolved g →
  glyph_for n0 store color g.
Proof.
  destruct t as [svg|key url n]; simpl; unfold loadSVGtoIMG, glyph_for.
  - intros [Hsvg _]. destruct (decodes svg) eqn:Hdec; [|done].
    intros [= <-]. split; [done|by left].
  - intros (-> & -> & Hn & _). destruct (respond n (colorURL color)) as [svg|] eqn:Hr;
      [|done].
    destruct (decodes svg) eqn:Hdec; [|done]. intros [= <-].
    split; [done|]. right. by exists n.
Qed.


End Values.

Lemma join_imap_pairs {A B : Type} (f g : nat → A → B) (l : list A) (i : nat) (a : A) :
  l !! i = Some a →
  mjoin (imap (λ n x, [f n x; g n x]) l) !! (2 * i)%nat = Some (f i a)
  ∧ mjoin (imap (λ n x, [f n x; g n x]) l) !! (2 * i + 1)%nat = Some (g i a).
Proof.
  revert f g i a. induction l as [|x l IH]; intros f g i a Hi; [done|].
  destruct i as [|i].
  - injection Hi as ->. by split.
  - simpl in Hi.
    replace (2 * S i)%nat with (S (S (2 * i))) by lia.
    replace (S (S (2 * i)) + 1)%nat with (S (S (2 * i + 1))) by lia.
    exact (IH (λ n, f (S n)) (λ n, g (S n)) i a Hi).
Qed.

(** X10: when a row resolves, the tiles are drawn from the left, each
    cleared and then painted at its own offset, and the glyph painted on a
    tile was decoded from the blob cached for the colour of that tile when
    the row began, or from the answer to a request for that colour sent by
    this row, in whatever order the answers arrived. *)
Theorem row_draws_each_tile_its_glyph `{TileSize} `{Browser}
    (tileRow : list string) (rowNum : nat) (w : World) :
  (renderRow tileRow rowNum w).1 = Resolved () →
  ∃ svgs,
    Forall2 (glyph_for (issued w) (localStorage w)) tileRow svgs
    ∧ since (row_settled tileRow rowNum w).2 (renderRow tileRow rowNum w).2
      = row_draws svgs rowNum ++ [RowDone rowNum]
    ∧ ∀ colNum svg, svgs !! colNum = Some svg →
        row_draws svgs rowNum !! (2 * colNum)%nat
        = Some (ClearRect (Z.of_nat colNum * TILE_WIDTH)
                          (Z.of_nat rowNum * TILE_HEIGHT) TILE_WIDTH TILE_HEIGHT)
        ∧ row_draws svgs rowNum !! (2 * colNum + 1)%nat
          = Some (DrawImage svg (Z.of_nat colNum * TILE_WIDTH)
                            (Z.of_nat rowNum * TILE_HEIGHT)).
Proof.
  unfold renderRow, row_settled.
  destruct (start_all tileRow (log [RowBegin rowNum] w)) as [tasks w1] eqn:Hstart.
  destruct (settle_all (arrival_order rowNum tasks) w1) as [settled w2] eqn:Hsettle.
  apply settle_all_spec in Hsettle as (-> & _).
  pose proof (start_all_spec _ _ _ _ Hstart) as (Hlen & _).
  apply start_all_requests in Hstart as (_ & _ & _ & Htasks).
  cbn [issued log localStorage] in Htasks.
  destruct (Promise_all _ _) as [svgs|e|] eqn:Hall; [|done..]. intros _.
  rewrite <- Hlen in Hall.
  apply (Promise_all_tasks tasks) in Hall; [|apply arrival_order_perm].
  exists svgs. cbn [fst snd]. split_and!.
  - apply Forall2_same_length_lookup_2.
    + apply Forall2_length in Htasks, Hall. congruence.
    + intros i color g Hcolor Hg.
      destruct (Forall2_lookup_l _ _ _ _ _ Htasks Hcolor) as (t & Ht & Hfor).
      eapply task_for_glyph; [done|].
      by apply (Forall2_lookup_lr _ _ _ _ _ _ Hall Ht Hg).
  - apply since_app. by rewrite trace_log, draw_row_spec, trace_log, <- app_assoc.
  - intros colNum svg Hsvg. unfold row_draws.
    apply (join_imap_pairs
      (λ n _, ClearRect (Z.of_nat n * TILE_WIDTH) (Z.of_nat rowNum * TILE_HEIGHT)
                        TILE_WIDTH TILE_HEIGHT)
      (λ n g, DrawImage g (Z.of_nat n * TILE_WIDTH) (Z.of_nat rowNum * TILE_HEIGHT))
      svgs colNum svg Hsvg).
Qed.

(** The row of the demonstration page with the answers arriving from the
    right. *)
Lemma row_draws_each_tile_its_glyph_demo :
  ∃ svgs,
    Forall2 (@glyph_for demoTile smallStoreBrowser 0 (localStorage demoWorld))
            ["0c2238"; "ff1000"] svgs.
Proof.
  destruct (@row_draws_each_tile_its_glyph demoTile smallStoreBrowser
              ["0c2238"; "ff1000"] 0 demoWorld) as (svgs & Hglyphs & _).
  - vm_compute. reflexivity.
  - exists svgs. exact Hglyphs.
Defined.

(** ** A run in which nothing fails *)

Section Healthy.
Context `{TileSize} `{Browser}.
Hypothesis answered : ∀ n url, is_Some (respond n url).
Hypothesis decoded : ∀ svg, decodes svg = true.








End Healthy.



(** ** When [generate] throws *)

Lemma mosaicArray_None `{TileSize} (ctx : Img.t) (xTotal yTotal : JS.num) :
  mosaicArray ctx xTotal yTotal = None
  ↔ range yTotal = None
    ∨ ((∃ ny, yTotal = JS.Int ny ∧ 0 < ny) ∧ range xTotal = None).
Proof.
  unfold mosaicArray. destruct (range yTotal) as [ys|] eqn:Hys; [|by split; auto].
  apply range_Some in Hys as (ny & -> & Hny & ->).
  destruct (range xTotal) as [xs|] eqn:Hxs.
  - rewrite (mapM_Some_fmap (λ y, (λ x, tileColor ctx x y) <$> xs)).
    split; [done|]. by intros [|[_ ?]].
  - destruct (JS.upto ny) as [|y ys] eqn:Hupto.
    + split; [done|]. intros [|[(ny' & [= <-] & Hpos) _]]; [done|].
      apply (f_equal length) in Hupto. rewrite length_upto in Hupto.
      simpl in Hupto. lia.
    + split; [|done]. intros _. right. split; [|done]. exists ny. split; [done|].
      apply (f_equal length) in Hupto. rewrite length_upto in Hupto.
      simpl in Hupto. lia.
Qed.

(** X12: [generate] throws a [RangeError] instead of returning a promise
    exactly when [height / tileHeight] is no array length, or the grid has at
    least one row and [width / tileWidth] is no array length; by then it has
    already cleared the glyph cache and replaced the canvas, and it has sent
    and drawn nothing. With the tile size of the module and an image whose
    sides are below 2^32 it never throws. *)
Theorem generate_throws_exactly `{TileSize} `{Browser} (img : Img.t)
    (tileWidth tileHeight : option Z) (w : World) :
  let xTotal := JS.divide (width (clipImage img)) (default TILE_WIDTH tileWidth) in
  let yTotal := JS.divide (height (clipImage img)) (default TILE_HEIGHT tileHeight) in
  ((generateMosaic img tileWidth tileHeight w).1 = Throws RangeError
   ↔ range yTotal = None
     ∨ ((∃ ny, yTotal = JS.Int ny ∧ 0 < ny) ∧ range xTotal = None))
  ∧ ((generateMosaic img tileWidth tileHeight w).1 = Throws RangeError →
     (generateMosaic img tileWidth tileHeight w).2
     = setCanvas (baseLayer img) (clearCachedSvgs w))
  ∧ (0 < TILE_WIDTH → 0 < TILE_HEIGHT →
     0 ≤ Img.width img < 2 ^ 32 → 0 ≤ Img.height img < 2 ^ 32 →
     ∀ w0, (generateMosaic img None None w0).1 ≠ Throws RangeError).
Proof.
  cbn zeta.
  assert (Hthrows : ∀ tw th w0,
    (generateMosaic img tw th w0).1 = Throws RangeError ↔ gridOf img tw th = None).
  { intros tw th w0. rewrite generateMosaic_rows. cbn zeta.
    destruct (gridOf img tw th) as [grid|]; [|done].
    by destruct (rows_from grid 0 _) as [[[]|e|] w3]. }
  split_and!.
  - rewrite Hthrows. apply mosaicArray_None.
  - intros Hgrid%Hthrows. rewrite generateMosaic_rows. cbn zeta. by rewrite Hgrid.
  - intros HW HH HW0 HH0 w0 Hgrid%Hthrows.
    by rewrite gridOf_default in Hgrid.
Qed.

(** ** What a run leaves in the store *)

Section Keeps.
Context `{TileSize} `{Browser}.

Lemma run_keeps_refl (n0 : nat) (w : World) : run_keeps n0 w w.
Proof. by split_and!. Qed.

Lemma run_keeps_trans (n0 : nat) (w1 w2 w3 : World) :
  run_keeps n0 w1 w2 → run_keeps n0 w2 w3 → run_keeps n0 w1 w3.
Proof.
  intros (Hi1 & Ho1 & Hf1) (Hi2 & Ho2 & Hf2). split_and!; [lia| |auto].
  intros k Hk. by rewrite Ho2, Ho1.
Qed.

Lemma run_keeps_log (n0 : nat) (es : list Event) (w : World) :
  run_keeps n0 w (log es w).
Proof. by split_and!. Qed.

Lemma run_keeps_clear (n0 : nat) (w : World) : run_keeps n0 w (clearCachedSvgs w).
Proof.
  split_and!; [done|intros k Hk; by apply clearCachedSvgs_other|].
  intros _ k v Hk Hp. by rewrite clearCachedSvgs_cache in Hk.
Qed.

Lemma requestSVG_settle_keeps (n0 : nat) (store : gmap string string)
    (color : string) (t : Task) (w w' : World) (o : Outcome Glyph) :
  task_for n0 store color t → requestSVG_settle t w = (o, w') → run_keeps n0 w w'.
Proof.
  destruct t as [svg|key url n]; simpl.
  - intros _ [= <- <-]. apply run_keeps_refl.
  - intros (-> & -> & Hn & _).
    destruct (respond n (colorURL color)) as [svg|] eqn:Hrespond;
      [|intros [= <- <-]; apply run_keeps_refl].
    intros [= <- <-]. destruct (fits _ _ _); [|apply run_keeps_clear].
    split_and!; [done| |].
    + intros k Hk. cbn [localStorage setStorage]. apply lookup_insert_ne.
      intros <-. by rewrite storageKey_prefix in Hk.
    + intros Hfresh k v. cbn [localStorage setStorage].
      rewrite lookup_insert_Some. intros [[<- <-]|[_ Hk]] Hp.
      * exists color. split; [done|]. by exists n.
      * by apply (Hfresh k v).
Qed.

Lemma settle_all_keeps (n0 : nat) (sched : list (nat * Task)) :
  Forall (λ it, ∃ store color, task_for n0 store color it.2) sched →
  ∀ (w w' : World) (settled : list (nat * Outcome Glyph)),
    settle_all sched w = (settled, w') → run_keeps n0 w w'.
Proof.
  induction 1 as [|[i t] rest (store & color & Hfor) _ IH]; intros w w' settled;
    simpl.
  - intros [= <- <-]. apply run_keeps_refl.
  - destruct (requestSVG_settle t w) as [o wa] eqn:Ho.
    destruct (settle_all rest wa) as [os wb] eqn:Hos.
    intros [= <- <-].
    eapply run_keeps_trans; [by eapply requestSVG_settle_keeps|by eapply IH].
Qed.

Lemma start_all_keeps (n0 : nat) (tileRow : list string) (w w1 : World)
    (tasks : list Task) :
  start_all tileRow w = (tasks, w1) → run_keeps n0 w w1.
Proof.
  intros (Hs & _ & Hi & _)%start_all_requests. split_and!; [lia| |].
  - intros k _. by rewrite Hs.
  - intros Hfresh k v. rewrite Hs. apply Hfresh.
Qed.

Lemma renderRow_keeps (n0 : nat) (tileRow : list string) (rowNum : nat)
    (w w' : World) (o : Outcome unit) :
  (n0 ≤ issued w)%nat → renderRow tileRow rowNum w = (o, w') → run_keeps n0 w w'.
Proof.
  intros Hn0. unfold renderRow, row_settled.
  destruct (start_all tileRow (log [RowBegin rowNum] w)) as [tasks w1] eqn:Hstart.
  destruct (settle_all (arrival_order rowNum tasks) w1) as [settled w2] eqn:Hsettle.
  pose proof (start_all_keeps n0 _ _ _ _ Hstart) as Hk1.
  apply start_all_requests in Hstart as (_ & _ & _ & Htasks).
  assert (Hk2 : run_keeps n0 w1 w2).
  { eapply settle_all_keeps; [|done].
    rewrite arrival_order_perm. apply Forall_forall. intros [i t] Hit.
    apply imap_pair_elem in Hit.
    destruct (Forall2_lookup_r _ _ _ _ _ Htasks Hit) as (color & _ & Hfor).
    exists (localStorage (log [RowBegin rowNum] w)), color.
    eapply task_for_mono; [|done]. done. }
  assert (Hk : run_keeps n0 w w2).
  { eapply run_keeps_trans; [|done]. eapply run_keeps_trans; [|done].
    apply run_keeps_log. }
  destruct (Promise_all _ settled) as [svgs|e|]; intros [= <- <-]; try done.
  eapply run_keeps_trans; [done|]. rewrite draw_row_spec.
  eapply run_keeps_trans; apply run_keeps_log.
Qed.

Lemma rows_from_keeps (n0 : nat) (rows : list (list string)) :
  ∀ (i : nat) (w w' : World) (o : Outcome unit),
    (n0 ≤ issued w)%nat → rows_from rows i w = (o, w') → run_keeps n0 w w'.
Proof.
  induction rows as [|row rest IH]; intros i w w' o Hn0; simpl.
  - intros [= <- <-]. apply run_keeps_refl.
  - unfold and_then. destruct (renderRow row i w) as [o1 w1] eqn:Hrow.
    apply (renderRow_keeps n0) in Hrow; [|done].
    destruct o1 as [[]|e|]; [|by intros [= <- <-]..].
    intros Hrest%IH; [by eapply run_keeps_trans|].
    destruct Hrow as (Hi & _). lia.
Qed.

(** A whole run, from the state in which it is called. *)
Lemma generateMosaic_keeps (img : Img.t) (tileWidth tileHeight : option Z)
    (w : World) :
  let w' := (generateMosaic img tileWidth tileHeight w).2 in
  (issued w ≤ issued w')%nat
  ∧ (∀ k, String.prefix "mosaic-" k = false →
          localStorage w' !! k = localStorage w !! k)
  ∧ cache_fresh (issued w) w'.
Proof.
  cbn zeta.
  assert (Hcleared : cache_fresh (issued w)
                       (setCanvas (baseLayer img) (clearCachedSvgs w))).
  { intros k v Hk Hp. cbn [localStorage setCanvas] in Hk.
    by rewrite clearCachedSvgs_cache in Hk. }
  assert (Hother : ∀ k, String.prefix "mosaic-" k = false →
    localStorage (setCanvas (baseLayer img) (clearCachedSvgs w)) !! k
    = localStorage w !! k).
  { intros k Hk. cbn [localStorage setCanvas]. by apply clearCachedSvgs_other. }
  rewrite generateMosaic_rows. cbn zeta.
  destruct (gridOf img tileWidth tileHeight) as [mosaic|]; cbn [snd]; [|done].
  destruct (rows_from mosaic 0 _) as [o w3] eqn:Hrows.
  apply (rows_from_keeps (issued w)) in Hrows as (Hi & Ho & Hf); [|done].
  assert (Hall : (issued w ≤ issued w3)%nat
    ∧ (∀ k, String.prefix "mosaic-" k = false →
            localStorage w3 !! k = localStorage w !! k)
    ∧ cache_fresh (issued w) w3).
  { split_and!; [done| |by apply Hf]. intros k Hk. by rewrite Ho, Hother. }
  by destruct o as [[]|e|].
Qed.

End Keeps.

(** X13: a call of [generate], however it ends, leaves every entry of
    [localStorage] whose key does not begin with "mosaic-" exactly as it found
    it. *)
Theorem generate_keeps_other_entries `{TileSize} `{Browser} (img : Img.t)
    (tileWidth tileHeight : option Z) (w : World) (k : string) :
  String.prefix "mosaic-" k = false →
  localStorage (generateMosaic img tileWidth tileHeight w).2 !! k
  = localStorage w !! k.
Proof. intros Hk. by apply generateMosaic_keeps. Qed.

(** The entry "theme" of the demonstration page after a run. *)
Lemma generate_keeps_other_entries_demo :
  localStorage
    (@generateMosaic demoTile smallStoreBrowser demoImage None None demoWorld).2
    !! "theme" = Some "dark".
Proof.
  exact (@generate_keeps_other_entries demoTile smallStoreBrowser demoImage
           None None demoWorld "theme" eq_refl).
Defined.


(** ** Rendering a grid in two parts *)

(** X15: rendering a grid is rendering its first rows and, only if they all
    resolved, the remaining rows with their indices shifted by the number of
    the first; when the first rows do not resolve, the result is theirs and
    no later row is started. In both cases what the first rows did comes
    first in the trace. *)
Theorem renderMosaic_app `{TileSize} `{Browser} (rows1 rows2 : list (list string))
    (w : World) :
  renderMosaic (rows1 ++ rows2) w
  = match renderMosaic rows1 w with
    | (Resolved _, w1) => rows_from rows2 (length rows1) w1
    | (Rejected e, w1) => (Rejected e, w1)
    | (Pending, w1) => (Pending, w1)
    end
  ∧ ∃ tr, trace (renderMosaic (rows1 ++ rows2) w).2
          = trace (renderMosaic rows1 w).2 ++ tr.
Proof.
  assert (Heq : renderMosaic (rows1 ++ rows2) w
    = match renderMosaic rows1 w with
      | (Resolved _, w1) => rows_from rows2 (length rows1) w1
      | (Rejected e, w1) => (Rejected e, w1)
      | (Pending, w1) => (Pending, w1)
      end).
  { rewrite !renderMosaic_rows, rows_from_app. unfold and_then.
    by destruct (rows_from rows1 0 w) as [[[]|e|] w1]. }
  split; [done|]. rewrite Heq.
  destruct (renderMosaic rows1 w) as [[[]|e|] w1]; cbn [snd];
    [|exists []; by rewrite app_nil_r..].
  destruct (rows_from rows2 (length rows1) w1) as [o w2] eqn:Hrest.
  apply rows_from_trace in Hrest as (tr & Ht & _). by exists tr.
Qed.

(** ** An average stays among its pixels *)

Lemma channel_sum_between (f : Pixel → byte) (ps : list Pixel) (lo hi : Z) :
  (∀ p, p ∈ ps → lo ≤ chan (f p) ≤ hi) →
  lo * Z.of_nat (length ps) ≤ channel_sum f ps ≤ hi * Z.of_nat (length ps).
Proof.
  induction ps as [|p ps IH]; intros Hps; [simpl; lia|].
  rewrite channel_sum_cons. cbn [length].
  assert (Hp : lo ≤ chan (f p) ≤ hi) by (apply Hps; by left).
  assert (Hrest : lo * Z.of_nat (length ps) ≤ channel_sum f ps
                  ≤ hi * Z.of_nat (length ps))
    by (apply IH; intros q Hq; apply Hps; by right).
  lia.
Qed.

Lemma average_between `{TileSize} (f : Pixel → byte) (ps : list Pixel) (lo hi : Z) :
  0 < pixelsPerTile → Z.of_nat (length ps) = pixelsPerTile →
  (∀ p, p ∈ ps → lo ≤ chan (f p) ≤ hi) →
  lo ≤ average (channel_sum f ps) ≤ hi.
Proof.
  intros Hpos Hlen Hps. unfold average, JS.floor_div.
  pose proof (channel_sum_between f ps lo hi Hps) as Hsum. rewrite Hlen in Hsum.
  split.
  - apply Z.div_le_lower_bound; lia.
  - apply Z.div_le_upper_bound; lia.
Qed.

(** X16: the colour of a tile is made of three averages, written by [toHex]
    in the order red, green, blue, and an average never leaves the range of
    the values it averages: when every pixel the tile reads has its three
    channels between [lo] and [hi], so are the three averages. *)
Theorem tile_average_within_pixels `{TileSize} (ctx : Img.t) (x y lo hi : Z) :
  0 < TILE_WIDTH → 0 < TILE_HEIGHT →
  (∀ p, p ∈ rect ctx (TILE_WIDTH * x) (TILE_HEIGHT * y) TILE_WIDTH TILE_HEIGHT →
        lo ≤ chan (red p) ≤ hi ∧ lo ≤ chan (green p) ≤ hi
        ∧ lo ≤ chan (blue p) ≤ hi) →
  ∃ r g b, tileColor ctx x y = toHex r +:+ toHex g +:+ toHex b
           ∧ lo ≤ r ≤ hi ∧ lo ≤ g ≤ hi ∧ lo ≤ b ≤ hi.
Proof.
  intros HW HH Hps.
  set (ps := rect ctx (TILE_WIDTH * x) (TILE_HEIGHT * y) TILE_WIDTH TILE_HEIGHT) in *.
  assert (Hlen : Z.of_nat (length ps) = pixelsPerTile)
    by (unfold ps, pixelsPerTile; apply length_rect; lia).
  assert (Hpos : 0 < pixelsPerTile) by (unfold pixelsPerTile; lia).
  exists (average (channel_sum red ps)), (average (channel_sum green ps)),
    (average (channel_sum blue ps)).
  split; [|split; [|split]].
  - unfold tileColor, getImageData, JS.reduce. fold ps.
    rewrite reduce_totalColor by done. rewrite !Z.add_0_l. reflexivity.
  - apply average_between; [done..|]. intros p Hp. by apply Hps.
  - apply average_between; [done..|]. intros p Hp. by apply Hps.
  - apply average_between; [done..|]. intros p Hp. by apply Hps.
Qed.

(** The left tile of the demonstration page: its channels are 12, 34 and
    56. *)
Lemma tile_average_within_pixels_demo :
  ∃ r g b, @tileColor demoTile (@baseLayer demoTile demoImage) 0 0
           = toHex r +:+ toHex g +:+ toHex b
           ∧ 12 ≤ r ≤ 56 ∧ 12 ≤ g ≤ 56 ∧ 12 ≤ b ≤ 56.
Proof.
  apply (@tile_average_within_pixels demoTile (@baseLayer demoTile demoImage)
           0 0 12 56); [concrete_size|concrete_size|].
  assert (Hrect : rect (@baseLayer demoTile demoImage)
                       (@TILE_WIDTH demoTile * 0) (@TILE_HEIGHT demoTile * 0)
                       (@TILE_WIDTH demoTile) (@TILE_HEIGHT demoTile)
                  = replicate 4 {| red := x0c; green := x22; blue := x38;
                                   alpha := xff |})
    by (vm_compute; reflexivity).
  rewrite Hrect. intros p Hp. apply elem_of_replicate in Hp as [-> _].
  vm_compute. intuition discriminate.
Defined.

(** ** A call starts from an empty glyph cache *)

(** X17: what a call of [generate] returns and does is the same whether the
    glyph cache it finds is empty or filled, and whatever the canvas holds: a
    glyph cached by an earlier call never saves a later call a request. *)
Theorem generate_ignores_prior_cache `{TileSize} `{Browser} (img : Img.t)
    (tileWidth tileHeight : option Z) (w : World) :
  generateMosaic img tileWidth tileHeight w
  = generateMosaic img tileWidth tileHeight (clearCachedSvgs w)
  ∧ (∀ cv, generateMosaic img tileWidth tileHeight (setCanvas cv w)
           = generateMosaic img tileWidth tileHeight w)
  ∧ (∀ color svg,
       generateMosaic img tileWidth tileHeight
         (setStorage (<[storageKey color := svg]> (localStorage w)) w)
       = generateMosaic img tileWidth tileHeight w).
Proof.
  assert (Hclear : ∀ w1 w2, clearCachedSvgs w1 = clearCachedSvgs w2 →
    generateMosaic img tileWidth tileHeight w1
    = generateMosaic img tileWidth tileHeight w2).
  { intros w1 w2 Heq. unfold generateMosaic, generateMosaic_grid. cbn zeta.
    by rewrite Heq. }
  split_and!.
  - apply Hclear. by rewrite clearCachedSvgs_idem.
  - intros cv. unfold generateMosaic, generateMosaic_grid. reflexivity.
  - intros color svg. apply Hclear.
    assert (Hstore : localStorage (clearCachedSvgs
                (setStorage (<[storageKey color := svg]> (localStorage w)) w))
              = localStorage (clearCachedSvgs w)).
    { apply map_eq. intros k. rewrite !clearCachedSvgs_lookup.
      destruct (String.prefix "mosaic-" k) eqn:Hk; [done|].
      cbn [localStorage setStorage]. apply lookup_insert_ne.
      intros <-. by rewrite storageKey_prefix in Hk. }
    unfold clearCachedSvgs at 1. unfold clearCachedSvgs at 1 in Hstore.
    cbn [localStorage setStorage] in Hstore.
    unfold setStorage at 1. cbn [localStorage canvas issued trace setStorage].
    rewrite Hstore. reflexivity.
Qed.

(** ** A rendered row is cached *)

Section Cached.
Context `{TileSize} `{Browser}.
Hypothesis roomy : ∀ store key svg, fits store key svg = true.
Hypothesis not_empty : ∀ n url, respond n url ≠ Some EmptyString.

Lemma truthy_insert (store : gmap string string) (k k' v : string) :
  v ≠ EmptyString → truthy (store !! k') = true →
  truthy (<[k := v]> store !! k') = true.
Proof.
  intros Hv Hk'. destruct (decide (k = k')) as [->|Hne].
  - rewrite lookup_insert_eq. apply truthy_Some. by exists v.
  - by rewrite lookup_insert_ne.
Qed.

(** With a store that takes everything, handling the answers only adds
    entries, and every answered request leaves its blob under its key. *)
Lemma settle_all_cached (sched : list (nat * Task)) :
  ∀ (w w' : World) (settled : list (nat * Outcome Glyph)),
    settle_all sched w = (settled, w') →
    (∀ k, truthy (localStorage w !! k) = true →
          truthy (localStorage w' !! k) = true)
    ∧ (∀ i key url n, (i, Fetching key url n) ∈ sched →
         is_Some (respond n url) → truthy (localStorage w' !! key) = true).
Proof.
  induction sched as [|[i t] rest IH]; intros w w' settled; simpl.
  - intros [= <- <-]. split; [done|]. by intros i key url n Hin%elem_of_nil.
  - destruct (requestSVG_settle t w) as [o wa] eqn:Ho.
    destruct (settle_all rest wa) as [os wb] eqn:Hos.
    intros [= <- <-]. apply IH in Hos as [Hkeep Hnew].
    assert (Hstep : ∀ k, truthy (localStorage w !! k) = true →
                         truthy (localStorage wa !! k) = true).
    { intros k Hk. destruct t as [svg|key url n]; simpl in Ho.
      - by injection Ho as <- <-.
      - destruct (respond n url) as [svg|] eqn:Hr; [|by injection Ho as <- <-].
        rewrite roomy in Ho. injection Ho as <- <-. cbn [localStorage setStorage].
        apply truthy_insert; [|done]. intros ->. by apply (not_empty n url). }
    split; [auto|].
    intros j key url n Hin [svg Hsvg].
    apply elem_of_cons in Hin as [[= -> <-]|Hin]; [|by eapply Hnew].
    apply Hkeep. simpl in Ho. rewrite Hsvg, roomy in Ho. injection Ho as <- <-.
    cbn [localStorage setStorage]. rewrite lookup_insert_eq.
    apply truthy_Some. exists svg. split; [done|].
    intros ->. by apply (not_empty n url).
Qed.

Lemma uncached_nil (store : gmap string string) (tileRow : list string) :
  (∀ color, color ∈ tileRow → truthy (store !! storageKey color) = true) →
  uncached store tileRow = [].
Proof.
  unfold uncached. induction tileRow as [|c rest IH]; intros Hall; [done|].
  cbn [List.filter]. rewrite (Hall c) by (by left). simpl.
  apply IH. intros color Hc. apply Hall. by right.
Qed.

Lemma resolved_row_cached (tileRow : list string) (rowNum : nat) (w : World) :
  (renderRow tileRow rowNum w).1 = Resolved () →
  ∀ color, color ∈ tileRow →
    truthy (localStorage (renderRow tileRow rowNum w).2 !! storageKey color) = true.
Proof.
  unfold renderRow, row_settled.
  destruct (start_all tileRow (log [RowBegin rowNum] w)) as [tasks w1] eqn:Hstart.
  destruct (settle_all (arrival_order rowNum tasks) w1) as [settled w2] eqn:Hsettle.
  pose proof (settle_all_cached _ _ _ _ Hsettle) as [Hkeep Hnew].
  apply settle_all_spec in Hsettle as (-> & _).
  pose proof (start_all_spec _ _ _ _ Hstart) as (Hlen & _).
  apply start_all_requests in Hstart as (Hs & _ & _ & Htasks).
  destruct (Promise_all _ _) as [svgs|e|] eqn:Hall; [|done..]. intros _.
  rewrite <- Hlen in Hall.
  apply (Promise_all_tasks tasks) in Hall; [|apply arrival_order_perm].
  intros color Hcolor. cbn [snd]. rewrite draw_row_spec. cbn [localStorage log].
  apply list_elem_of_lookup in Hcolor as [i Hi].
  destruct (Forall2_lookup_l _ _ _ _ _ Htasks Hi) as (t & Ht & Hfor).
  destruct (Forall2_lookup_l _ _ _ _ _ Hall Ht) as (g & _ & Hg).
  destruct t as [svg|key url n]; simpl in Hfor.
  - destruct Hfor as [Hsvg Hne]. apply Hkeep. rewrite Hs. cbn [localStorage log].
    cbn [localStorage log] in Hsvg. apply truthy_Some. by exists svg.
  - destruct Hfor as (-> & -> & _ & _).
    apply (Hnew i (storageKey color) (colorURL color) n).
    + rewrite arrival_order_perm. by apply imap_pair_elem.
    + simpl in Hg. destruct (respond n (colorURL color)); [by eexists|done].
Qed.

End Cached.

(** X18: behind a store that never overflows and a service that never
    answers with an empty body, a row that has resolved leaves a blob under
    the key of every colour it holds; the row, rendered again from there,
    finds every glyph in the cache and sends no request. *)
Theorem rendered_row_is_cached `{TileSize} `{Browser}
    (tileRow : list string) (rowNum : nat) (w : World) :
  (∀ store key svg, fits store key svg = true) →
  (∀ n url, respond n url ≠ Some EmptyString) →
  (renderRow tileRow rowNum w).1 = Resolved () →
  let w' := (renderRow tileRow rowNum w).2 in
  (∀ color, color ∈ tileRow →
     ∃ svg, localStorage w' !! storageKey color = Some svg ∧ svg ≠ EmptyString)
  ∧ uncached (localStorage w') tileRow = []
  ∧ ∀ rowNum2, since w' (row_settled tileRow rowNum2 w').2 = [RowBegin rowNum2].
Proof.
  intros Hroomy Hne Hres. cbn zeta.
  pose proof (resolved_row_cached Hroomy Hne tileRow rowNum w Hres) as Hcached.
  assert (Hnil : uncached (localStorage (renderRow tileRow rowNum w).2) tileRow = [])
    by (by apply uncached_nil).
  split_and!; [|done|].
  - intros color Hcolor. by apply truthy_Some, Hcached.
  - intros rowNum2. unfold row_settled.
    destruct (start_all tileRow (log [RowBegin rowNum2] _)) as [tasks w1] eqn:Hstart.
    destruct (settle_all (arrival_order rowNum2 tasks) w1) as [settled w2]
      eqn:Hsettle.
    apply start_all_requests in Hstart as (_ & Htr & _).
    apply settle_all_spec in Hsettle as (_ & Ht2 & _).
    cbn [localStorage log trace] in Htr. rewrite Hnil in Htr.
    cbn [snd]. apply since_app. rewrite Ht2, Htr. cbn [fmap list_fmap].
    by rewrite app_nil_r.
Qed.

(** The row of the demonstration page, rendered once. *)
Lemma rendered_row_is_cached_demo :
  @uncached demoTile
    (localStorage (@renderRow demoTile demoBrowser ["0c2238"; "ff1000"] 0 demoWorld).2)
    ["0c2238"; "ff1000"] = [].
Proof.
  refine (proj1 (proj2 (@rendered_row_is_cached demoTile demoBrowser
    ["0c2238"; "ff1000"] 0 demoWorld _ _ _))).
  - intros store key svg. reflexivity.
  - intros n url. discriminate.
  - vm_compute. reflexivity.
Defined.
